(** * osutil: reading files and directories out of (compressed) tar archives

    A shallow embedding of [archive.go] (package [util]):
    [ReadFileFromTar], [NewDecompressor], [Decompressor.Close], [DirReader]
    and [dirReader.Read], together with models of the collaborators they
    call ([path], [archive/tar], [io/ioutil], [os], the codec constructors),
    and the properties of the archive-reading core. *)

From Stdlib Require Import Ascii String List Arith Bool Lia.
From Stdlib.Strings Require Import Byte.
From stdpp Require Import base option gmap strings.
Import ListNotations.

Local Open Scope string_scope.
Local Open Scope list_scope.

(** ** Go values shared by the whole package *)

(** A Go [error] value that is not [nil].  A nil [error] is [None] in
    [option error].  [==] on these values is [decide (e1 = e2)]; the only
    comparison the package makes is against [io.EOF]. *)
Inductive error : Type :=
  | io_EOF
  | io_ErrUnexpectedEOF
  | tar_ErrHeader
  | gzip_ErrHeader
  | os_ErrNotExist
  | os_ErrClosed
  | os_ErrInvalid
  | lzma_Errno (code : nat)
  | flate_CorruptInputError (offset : nat)
  | fmt_Errorf (msg : string).

#[global] Instance error_eq_dec : EqDecision error.
Proof. solve_decision. Defined.

(** What a Go call can do: return, panic (a run-time error such as a nil
    dereference), or, for the loops below that run on fuel, fail to finish
    within the fuel given.  The lemmas named [*_total] show that the fuel
    the definitions pass is always enough. *)
Inductive outcome (A : Type) : Type :=
  | Done (a : A)
  | Panic (msg : string)
  | Timeout.
Arguments Done {A} a.
Arguments Panic {A} msg.
Arguments Timeout {A}.

Definition nil_deref : string :=
  "invalid memory address or nil pointer dereference".

(** The result of a [Read(b)]: the bytes stored into [b] (so [n] is their
    number) and the error. *)
Definition read_result : Type := list byte * option error.

Definition is_EOF (e : option error) : bool :=
  match e with
  | Some io_EOF => true
  | _ => false
  end.

(** ** Package path (Go standard library), as far as the code uses it *)

Module path.

Definition slash : ascii := "/"%char.
Definition dot : ascii := "."%char.

(** [at_sep r]: [r] is the end of the string or starts with a slash
    (the tests [r+1 == n || path[r+1] == '/'] of [Clean]). *)
Definition at_sep (r : list ascii) : bool :=
  match r with
  | [] => true
  | c :: _ => Ascii.eqb c slash
  end.

(** The inner loop of the [..] case of [Clean], on the output buffer kept
    in reverse: [out.w--] and then, while [out.w > dotdot] and the byte at
    [out.w] is not a slash, [out.w--]. *)
Fixpoint backtrack (dotdot : nat) (rout : list ascii) : list ascii :=
  match rout with
  | [] => []
  | c :: rest =>
      if (dotdot <? length rest)%nat && negb (Ascii.eqb c slash)
      then backtrack dotdot rest
      else rest
  end.

(** The bytes up to the next slash, and what follows them. *)
Fixpoint element (p : list ascii) : list ascii * list ascii :=
  match p with
  | [] => ([], [])
  | c :: r =>
      if Ascii.eqb c slash then ([], p)
      else let '(el, r') := element r in (c :: el, r')
  end.

(** The main loop of [Clean]: [p] is [path[r:]], [rout] the output buffer
    in reverse, so that [out.w] is [length rout]. *)
Fixpoint clean_loop (fuel : nat) (rooted : bool) (p rout : list ascii)
    (dotdot : nat) : list ascii :=
  match fuel with
  | O => rout
  | S fuel' =>
      match p with
      | [] => rout
      | c :: r =>
          if Ascii.eqb c slash then
            clean_loop fuel' rooted r rout dotdot
          else if Ascii.eqb c dot && at_sep r then
            clean_loop fuel' rooted r rout dotdot
          else if Ascii.eqb c dot
                  && match r with
                     | c' :: r' => Ascii.eqb c' dot && at_sep r'
                     | [] => false
                     end then
            let r' := tl r in
            if (dotdot <? length rout)%nat then
              clean_loop fuel' rooted r' (backtrack dotdot rout) dotdot
            else if negb rooted then
              let rout1 :=
                if (0 <? length rout)%nat then slash :: rout else rout in
              let rout2 := dot :: dot :: rout1 in
              clean_loop fuel' rooted r' rout2 (length rout2)
            else
              clean_loop fuel' rooted r' rout dotdot
          else
            let rout1 :=
              if (rooted && negb (length rout =? 1)%nat)
                 || (negb rooted && negb (length rout =? 0)%nat)
              then slash :: rout else rout in
            let '(el, r') := element p in
            clean_loop fuel' rooted r' (rev el ++ rout1) dotdot
      end
  end.

(** [path.Clean]. Every round of the loop consumes a byte, so the length
    of the path is fuel enough. *)
Definition Clean (p : string) : string :=
  let l := list_ascii_of_string p in
  match l with
  | [] => "."
  | c :: r =>
      let rooted := Ascii.eqb c slash in
      let out :=
        if rooted then clean_loop (length l) true r [slash] 1
        else clean_loop (length l) false l [] 0 in
      match out with
      | [] => "."
      | _ => string_of_list_ascii (rev out)
      end
  end.

(** [path[:i+1]] for [i] the index of the last slash ([-1] if none):
    the first component of [path.Split]. *)
Fixpoint split_dir (p : list ascii) : list ascii :=
  match p with
  | [] => []
  | c :: r =>
      if existsb (Ascii.eqb slash) p then c :: split_dir r else []
  end.

(** [path.Dir]. *)
Definition Dir (p : string) : string :=
  Clean (string_of_list_ascii (split_dir (list_ascii_of_string p))).

(** The loop of [path.Ext] run from the end of the path: [rp] is the path
    reversed, [acc] the bytes already passed. *)
Fixpoint ext_loop (rp acc : list ascii) : list ascii :=
  match rp with
  | [] => []
  | c :: r =>
      if Ascii.eqb c slash then []
      else if Ascii.eqb c dot then c :: acc
      else ext_loop r (c :: acc)
  end.

(** [path.Ext]. *)
Definition Ext (p : string) : string :=
  string_of_list_ascii (ext_loop (rev (list_ascii_of_string p)) []).

End path.

(** ** Package archive/tar (Go standard library): the entry scanner

    The package is used, not defined, by the repository.  A tape is the
    decoded stream seen as its records; [stop] is what the decoder meets
    after the last of them: [io_EOF] for the end marker of a well-formed
    archive, another error for a damaged or truncated one. *)

Module tar.

Record Header : Type := { Name : string; Size : nat }.

(** One record of the tape.  [fault] is the error that reading past the
    end of [body] gives when the stored body is shorter than the header
    declares; [None] for an intact record. *)
Record entry : Type := {
  name : string;
  body : list byte;
  fault : option error
}.

Record tape : Type := { entries : list entry; stop : error }.

(** The state of a [*tar.Reader]. [advances] counts the headers decoded
    so far: it is not a field of the Go type, it records which records
    of the tape a scan has visited. *)
Record Reader : Type := {
  pending : list entry;
  stop_err : error;
  curr : list byte;
  curr_fault : option error;
  err : option error;
  eager : bool;
  advances : nat
}.

(** [tar.NewReader(r)]. [eager_eof] is a property of the library
    version: whether [Read] reports [io.EOF] together with the last
    bytes of a body or only on the following call. The [io.Reader]
    contract allows both. *)
Definition NewReader (eager_eof : bool) (t : tape) : Reader :=
  {| pending := entries t; stop_err := stop t; curr := [];
     curr_fault := None; err := None; eager := eager_eof;
     advances := 0 |}.

Definition set_err (e : error) (tr : Reader) : Reader :=
  {| pending := pending tr; stop_err := stop_err tr; curr := curr tr;
     curr_fault := curr_fault tr; err := Some e; eager := eager tr;
     advances := advances tr |}.

(** [tr.Next()]: the header is nil ([None]) whenever the error is not.
    An error is sticky. Skipping the unread rest of a damaged body
    fails with its fault. *)
Definition Next (tr : Reader) : (option Header * option error) * Reader :=
  match err tr with
  | Some e => ((None, Some e), tr)
  | None =>
      match curr_fault tr with
      | Some e => ((None, Some e), set_err e tr)
      | None =>
          match pending tr with
          | [] => ((None, Some (stop_err tr)), set_err (stop_err tr) tr)
          | x :: rest =>
              ((Some {| Name := name x; Size := length (body x) |}, None),
               {| pending := rest; stop_err := stop_err tr;
                  curr := body x; curr_fault := fault x; err := None;
                  eager := eager tr; advances := S (advances tr) |})
          end
      end
  end.

Definition set_curr (c : list byte) (tr : Reader) : Reader :=
  {| pending := pending tr; stop_err := stop_err tr; curr := c;
     curr_fault := curr_fault tr; err := err tr; eager := eager tr;
     advances := advances tr |}.

(** What the end of the current body reads as. *)
Definition body_end (tr : Reader) : error :=
  match curr_fault tr with
  | Some e => e
  | None => io_EOF
  end.

(** [tr.Read(b)] with [len(b) = n]: at most [n] bytes of the current
    body. *)
Definition Read (n : nat) (tr : Reader) : read_result * Reader :=
  match err tr with
  | Some e => (([], Some e), tr)
  | None =>
      let data := firstn n (curr tr) in
      let rest := skipn n (curr tr) in
      let tr' := set_curr rest tr in
      match rest with
      | _ :: _ => ((data, None), tr')
      | [] =>
          match data with
          | _ :: _ =>
              if eager tr then
                ((data, Some (body_end tr)),
                 if decide (body_end tr = io_EOF) then tr'
                 else set_err (body_end tr) tr')
              else ((data, None), tr')
          | [] =>
              ((data, Some (body_end tr)),
               if decide (body_end tr = io_EOF) then tr'
               else set_err (body_end tr) tr')
          end
      end
  end.

End tar.

(** ** Package io/ioutil: ReadAll, applied to a tar reader

    [ReadAll] asks for [MinRead] bytes at a time until an error comes;
    [io.EOF] ends it with a nil error. *)

Definition MinRead : nat := 512.

Fixpoint ReadAll_loop (fuel : nat) (acc : list byte) (tr : tar.Reader)
    : outcome (read_result * tar.Reader) :=
  match fuel with
  | O => Timeout
  | S fuel' =>
      let '((data, e), tr') := tar.Read MinRead tr in
      match e with
      | Some io_EOF => Done ((acc ++ data, None), tr')
      | Some e' => Done ((acc ++ data, Some e'), tr')
      | None => ReadAll_loop fuel' (acc ++ data) tr'
      end
  end.

Definition ReadAll (tr : tar.Reader) : outcome (read_result * tar.Reader) :=
  ReadAll_loop (S (S (length (tar.curr tr)))) [] tr.

(** ** archive.go: ReadFileFromTar *)

(** [fmt.Errorf("file '%s' not found", file)]. *)
Definition not_found (file : string) : error :=
  fmt_Errorf ("file '" ++ file ++ "' not found").

(** The [for] loop of [ReadFileFromTar] over the reader [tr]. A [nil]
    byte slice and an empty one are both [[]]. *)
Fixpoint ReadFileFromTar_loop (fuel : nat) (tr : tar.Reader) (file : string)
    : outcome (read_result * tar.Reader) :=
  match fuel with
  | O => Timeout
  | S fuel' =>
      let '((hdr, e), tr1) := tar.Next tr in
      match e with
      | Some io_EOF => Done (([], Some (not_found file)), tr1)
      | Some e' => Done (([], Some e'), tr1)
      | None =>
          match hdr with
          | None => Panic nil_deref
          | Some h =>
              if decide (tar.Name h = file) then
                match ReadAll tr1 with
                | Done ((bytes, Some e'), tr2) => Done (([], Some e'), tr2)
                | Done ((bytes, None), tr2) => Done ((bytes, None), tr2)
                | Panic m => Panic m
                | Timeout => Timeout
                end
              else ReadFileFromTar_loop fuel' tr1 file
          end
      end
  end.

(** [ReadFileFromTar(r, file)]: [r] is the decoded stream, given as its
    tape. The final state of the local reader [tr] is returned with the
    result, to tell how far the scan went. *)
Definition ReadFileFromTar (eager_eof : bool) (r : tar.tape) (file : string)
    : outcome (read_result * tar.Reader) :=
  let tr := tar.NewReader eager_eof r in
  ReadFileFromTar_loop (S (S (length (tar.pending tr)))) tr file.


(** ** Package os and the codec packages, as far as NewDecompressor and
    Close use them *)

Module os.

(** The files of the machine: what is stored under each path, the open
    descriptors with the content they read, and the next free one. *)
Record state : Type := {
  disk : gmap string (list byte);
  open_files : gmap nat (list byte);
  next_fd : nat
}.

(** [os.Open(name)]: a [*os.File] is its descriptor. *)
Definition Open (name : string) (s : state)
    : (option nat * option error) * state :=
  match disk s !! name with
  | None => ((None, Some os_ErrNotExist), s)
  | Some content =>
      ((Some (next_fd s), None),
       {| disk := disk s;
          open_files := <[next_fd s := content]> (open_files s);
          next_fd := S (next_fd s) |})
  end.

(** [f.Close()]: closing a nil or an already closed file is an error. *)
Definition Close (f : option nat) (s : state) : option error * state :=
  match f with
  | None => (Some os_ErrInvalid, s)
  | Some fd =>
      match open_files s !! fd with
      | None => (Some os_ErrClosed, s)
      | Some _ =>
          (None,
           {| disk := disk s; open_files := delete fd (open_files s);
              next_fd := next_fd s |})
      end
  end.

Definition is_open (fd : nat) (s : state) : bool :=
  bool_decide (is_Some (open_files s !! fd)).

End os.

(** The [io.Reader] stored in a Decompressor: which transform decodes the
    file. The decoding itself is not modelled. *)
Inductive io_Reader : Type :=
  | xz_Reader
  | gz_Reader
  | bz2_Reader
  | file_Reader.

(** The [io.Closer] stored in a Decompressor, with what its [Close]
    reports: the lzma decompressor frees its stream and returns nil; the
    gzip reader returns the error its inflater stopped on ([io.EOF], the
    regular end, counts as none). *)
Inductive io_Closer : Type :=
  | xz_Closer
  | gz_Closer (inflate_err : option error).

Definition Closer_Close (c : io_Closer) : option error :=
  match c with
  | xz_Closer => None
  | gz_Closer e => if is_EOF e then None else e
  end.

(** [gzip.NewReader(r)] reads the ten fixed bytes of the member header
    and rejects a wrong magic number or method; the optional header
    fields that follow are taken as well-formed. *)
Definition gzip_NewReader (content : list byte) : option error :=
  match content with
  | [] => Some io_EOF
  | id1 :: id2 :: cm :: _ :: _ :: _ :: _ :: _ :: _ :: _ :: _ =>
      if Byte.eqb id1 x1f && Byte.eqb id2 x8b && Byte.eqb cm x08
      then None else Some gzip_ErrHeader
  | _ => Some io_ErrUnexpectedEOF
  end.

(** [lzma.NewReader(r)] fails exactly when liblzma's decoder
    initialisation returns a code other than [LZMA_OK]; the code is a fact
    of the environment. *)
Definition lzma_NewReader (lzma_ret : nat) : option error :=
  match lzma_ret with
  | O => None
  | _ => Some (lzma_Errno lzma_ret)
  end.

(** ** archive.go: Decompressor *)

Record Decompressor : Type := {
  file : option nat;
  reader : option io_Reader;
  closer : option io_Closer
}.

(** [NewDecompressor(filepath)]. The result is the pointer to the new
    Decompressor (nil is [None]) and the error. *)
Definition NewDecompressor (lzma_ret : nat) (filepath : string) (s : os.state)
    : (option Decompressor * option error) * os.state :=
  let '((f, e), s1) := os.Open filepath s in
  match e with
  | Some e' => ((None, Some e'), s1)
  | None =>
      let content := default [] (f ≫= (os.open_files s1 !!.)) in
      let ext := path.Ext filepath in
      if decide (ext = ".xz") then
        match lzma_NewReader lzma_ret with
        | Some e' => ((None, Some e'), s1)
        | None =>
            ((Some {| file := f; reader := Some xz_Reader;
                      closer := Some xz_Closer |}, None), s1)
        end
      else if decide (ext = ".gz") then
        match gzip_NewReader content with
        | Some e' => ((None, Some e'), s1)
        | None =>
            ((Some {| file := f; reader := Some gz_Reader;
                      closer := Some (gz_Closer None) |}, None), s1)
        end
      else if decide (ext = ".bz2") then
        ((Some {| file := f; reader := Some bz2_Reader; closer := None |},
          None), s1)
      else if decide (ext = ".tar") then
        ((Some {| file := f; reader := Some file_Reader; closer := None |},
          None), s1)
      else ((None, Some (fmt_Errorf "unknown file format")), s1)
  end.

(** [(d *Decompressor) Close()]. *)
Definition Decompressor_Close (d : Decompressor) (s : os.state)
    : option error * os.state :=
  match closer d with
  | Some c =>
      match Closer_Close c with
      | Some e => (Some e, s)
      | None => os.Close (file d) s
      end
  | None => os.Close (file d) s
  end.

(** ** archive.go: dirReader *)

(** The [*tar.Reader] values live in a heap: two pointers to one reader
    share its state. A nil pointer is [None]. *)
Abbreviation heap := (gmap nat tar.Reader).

Definition deref (p : option nat) (h : heap) : option tar.Reader :=
  p ≫= (h !!.).

Definition store (p : option nat) (r : tar.Reader) (h : heap) : heap :=
  match p with
  | Some l => <[l := r]> h
  | None => h
  end.

Record dirReader : Type := {
  tr : option nat;
  hdr : option tar.Header;
  base : string;
  err : option error
}.

(** [DirReader(tr, dirHeader)]. The result is the new [dirReader] behind
    the returned [io.Reader]. *)
Definition DirReader (tr0 : option nat) (dirHeader : option tar.Header)
    (h : heap) : outcome (dirReader * heap) :=
  match dirHeader with
  | None => Panic nil_deref
  | Some dh =>
      match deref tr0 h with
      | None => Panic nil_deref
      | Some r =>
          let '((hd, e), r') := tar.Next r in
          Done ({| tr := tr0; hdr := hd; base := path.Clean (tar.Name dh);
                   err := e |},
                store tr0 r' h)
      end
  end.

Definition set_hdr (hd : option tar.Header) (dr : dirReader) : dirReader :=
  {| tr := tr dr; hdr := hd; base := base dr; err := err dr |}.

Definition clear_err (dr : dirReader) : dirReader :=
  {| tr := tr dr; hdr := hdr dr; base := base dr; err := None |}.

(** The [for] loop of [(dr *dirReader) Read(b)], with [n = len(b)].

    The body is read with [tr.Read(b)], and [tr] is neither the receiver's
    field ([dr.tr]) nor a local of the method: it is an identifier of the
    package block, whose declaration is not in the source. Its value is the
    parameter [pkg_tr]. *)
Fixpoint dirReader_Read_loop (fuel : nat) (pkg_tr : option nat)
    (dr : dirReader) (n : nat) (h : heap)
    : outcome (read_result * dirReader * heap) :=
  match fuel with
  | O => Timeout
  | S fuel' =>
      match hdr dr with
      | None => Panic nil_deref
      | Some hd =>
          if decide (path.Dir (tar.Name hd) = base dr) then
            match deref pkg_tr h with
            | None => Panic nil_deref
            | Some r =>
                let '((data, e), r') := tar.Read n r in
                let h1 := store pkg_tr r' h in
                match data with
                | _ :: _ =>
                    Done ((data, if is_EOF e then None else e), dr, h1)
                | [] =>
                    if is_EOF e then
                      match deref (tr dr) h1 with
                      | None => Panic nil_deref
                      | Some r2 =>
                          let '((hd', e'), r2') := tar.Next r2 in
                          let dr' := set_hdr hd' dr in
                          let h2 := store (tr dr) r2' h1 in
                          match e' with
                          | Some _ => Done (([], e'), dr', h2)
                          | None =>
                              dirReader_Read_loop fuel' pkg_tr dr' n h2
                          end
                      end
                    else Done (([], e), dr, h1)
                end
            end
          else Done (([], Some io_EOF), dr, h)
      end
  end.

(** The records the scanner of [dr] has still to reach. *)
Definition ahead (dr : dirReader) (h : heap) : nat :=
  match deref (tr dr) h with
  | Some r => length (tar.pending r)
  | None => 0
  end.

(** [(dr *dirReader) Read(b)]. Every round of the loop but the last
    advances the scanner of [dr], so [ahead] bounds the rounds. *)
Definition dirReader_Read (pkg_tr : option nat) (dr : dirReader) (n : nat)
    (h : heap) : outcome (read_result * dirReader * heap) :=
  match err dr with
  | Some e => Done (([], Some e), clear_err dr, h)
  | None => dirReader_Read_loop (S (ahead dr h)) pkg_tr dr n h
  end.

(** A caller that reads a [dirReader] to exhaustion: [Read] with a buffer
    of [n] bytes until an error comes, collecting the bytes. *)
Fixpoint read_out (fuel : nat) (pkg_tr : option nat) (dr : dirReader)
    (n : nat) (h : heap) (acc : list byte)
    : outcome (read_result * dirReader * heap) :=
  match fuel with
  | O => Timeout
  | S fuel' =>
      match dirReader_Read pkg_tr dr n h with
      | Done ((data, Some e), dr', h') => Done ((acc ++ data, Some e), dr', h')
      | Done ((data, None), dr', h') =>
          read_out fuel' pkg_tr dr' n h' (acc ++ data)
      | Panic m => Panic m
      | Timeout => Timeout
      end
  end.

(** The reader has returned end-of-stream for good: no deferred error, and
    the current entry lies outside the directory read. *)
Definition Exhausted (dr : dirReader) : Prop :=
  err dr = None /\
  exists hd, hdr dr = Some hd /\ path.Dir (tar.Name hd) <> base dr.

(** [reads_trace pkg_tr dr h rs dr' h']: successive [Read] calls on [dr],
    with buffers of any sizes, return the results [rs] in this order and
    leave the reader and the heap as [dr'] and [h']. *)
Inductive reads_trace (pkg_tr : option nat)
    : dirReader -> heap -> list read_result -> dirReader -> heap -> Prop :=
  | reads_nil dr h : reads_trace pkg_tr dr h [] dr h
  | reads_cons dr h n r dr1 h1 rs dr2 h2 :
      dirReader_Read pkg_tr dr n h = Done (r, dr1, h1) ->
      reads_trace pkg_tr dr1 h1 rs dr2 h2 ->
      reads_trace pkg_tr dr h (r :: rs) dr2 h2.

(** A record that the scan for [file] passes over: another name, and a
    body stored in full. *)
Definition passed_over (file : string) (x : tar.entry) : Prop :=
  tar.name x <> file /\ tar.fault x = None.

(** A reader standing on an intact body, no error recorded. *)
Definition sound (tr : tar.Reader) : Prop :=
  tar.err tr = None /\ tar.curr_fault tr = None.

(** Where the scan stands after it has decoded [k] more headers, the last
    of them followed by [post], and read the body under it to the end. *)
Definition scanned (tr : tar.Reader) (k : nat) (post : list tar.entry)
    : tar.Reader :=
  {| tar.pending := post; tar.stop_err := tar.stop_err tr; tar.curr := [];
     tar.curr_fault := None; tar.err := None; tar.eager := tar.eager tr;
     tar.advances := k + tar.advances tr |}.

(** An intact record directly under the directory [b]. *)
Definition in_dir (b : string) (x : tar.entry) : Prop :=
  path.Dir (tar.name x) = b /\ tar.fault x = None.

(** The records [rest] that follow those of the directory [b] begin, if
    there are any, with one that is not directly under [b]. *)
Definition outside (b : string) (rest : list tar.entry) : Prop :=
  match rest with
  | [] => True
  | x :: _ => path.Dir (tar.name x) <> b
  end.

(** What ends the virtual stream: end-of-stream at a record outside the
    directory, and at the end of the tape whatever the tape ends with. *)
Definition dir_end (rest : list tar.entry) (stop_at : error) : error :=
  match rest with
  | [] => stop_at
  | _ :: _ => io_EOF
  end.

(** All the bodies of the records [es], one after the other. *)
Definition bodies (es : list tar.entry) : list byte :=
  concat (map tar.body es).

(** The reader [dr] reads through the scanner [r] at address [l] of the
    heap, which stands on an intact entry of the directory, and no error
    is deferred. *)
Definition standing (l : nat) (dr : dirReader) (h : heap) (r : tar.Reader)
    : Prop :=
  tr dr = Some l /\ err dr = None /\ h !! l = Some r /\ sound r /\
  exists hd, hdr dr = Some hd /\ path.Dir (tar.Name hd) = base dr.

(** ** archive.go: ReadFileFromArchive *)

(** [ReadFileFromArchive(archive, file)]; the parameter [file] is
    [file_name] here, [file] being the field of the Decompressor.

    The decoders are collaborators: [decode rd content] is the tape that
    the tar scanner reads through the transform [rd] over a file holding
    [content], and [inflated content res] the error that the gzip
    inflater holds once the scan over [content] has ended as [res] (the
    gzip reader is both [d.reader] and [d.closer], so reading through it
    decides what its [Close] reports).  The deferred [d.Close()] runs on
    every way out of [ReadFileFromTar], and its error is dropped. *)
Definition ReadFileFromArchive
    (decode : io_Reader -> list byte -> tar.tape)
    (inflated : list byte -> outcome (read_result * tar.Reader)
                -> option error)
    (lzma_ret : nat) (eager_eof : bool) (archive file_name : string)
    (s : os.state) : outcome read_result * os.state :=
  let '((d, e), s1) := NewDecompressor lzma_ret archive s in
  match e with
  | Some e' => (Done ([], Some e'), s1)
  | None =>
      match d with
      | None => (Panic nil_deref, s1)
      | Some d0 =>
          match reader d0 with
          | None => (Panic nil_deref, snd (Decompressor_Close d0 s1))
          | Some rd =>
              let content := default [] (file d0 ≫= (os.open_files s1 !!.)) in
              let res := ReadFileFromTar eager_eof (decode rd content) file_name in
              let d1 :=
                {| file := file d0; reader := reader d0;
                   closer :=
                     match closer d0 with
                     | Some (gz_Closer _) =>
                         Some (gz_Closer (inflated content res))
                     | c => c
                     end |} in
              let s2 := snd (Decompressor_Close d1 s1) in
              (match res with
               | Done (r, _) => Done r
               | Panic m => Panic m
               | Timeout => Timeout
               end, s2)
          end
      end
  end.

(** ** exists.go *)

(** An [os.FileInfo], as far as the code asks: [IsDir()]. *)
Record FileInfo : Type := { IsDir : bool }.

(** What [os.Stat] finds under each path: the file's information or the
    error of the look-up; nothing at all for a path that does not exist. *)
Abbreviation stat_table := (gmap string (FileInfo + error)).

(** [os.Stat(name)]: the information is nil whenever the error is not. *)
Definition os_Stat (t : stat_table) (name : string)
    : option FileInfo * option error :=
  match t !! name with
  | Some (inl fi) => (Some fi, None)
  | Some (inr e) => (None, Some e)
  | None => (None, Some os_ErrNotExist)
  end.

(** [os.IsNotExist(err)]. *)
Definition os_IsNotExist (e : option error) : bool :=
  match e with
  | Some os_ErrNotExist => true
  | _ => false
  end.

(** [isExists(path)]: [(ok, stat, err)]. *)
Definition isExists (t : stat_table) (p : string)
    : bool * option FileInfo * option error :=
  let '(stat, e) := os_Stat t p in
  match e with
  | Some _ =>
      let ok := negb (os_IsNotExist e) in
      if negb ok then (ok, stat, None) else (ok, stat, e)
  | None => (true, stat, None)
  end.

(** [IsExists(path)]. *)
Definition IsExists (t : stat_table) (p : string) : bool * option error :=
  let '(ok, _, e) := isExists t p in (ok, e).

(** [stat.IsDir()] on the [os.FileInfo] interface value [stat]: a method
    call on a nil interface panics. *)
Definition stat_IsDir (stat : option FileInfo) : outcome bool :=
  match stat with
  | Some fi => Done (IsDir fi)
  | None => Panic nil_deref
  end.

(** [IsFileExists(path)]. The right operand of [&&] is evaluated only
    when [err != nil]. *)
Definition IsFileExists (t : stat_table) (p : string)
    : outcome (bool * option error) :=
  let '(ok, stat, e) := isExists t p in
  match e with
  | Some _ =>
      match stat_IsDir stat with
      | Done true =>
          Done (ok, Some (fmt_Errorf
                            (p ++ " exists but is a directory not a file")))
      | Done false => Done (ok, e)
      | Panic m => Panic m
      | Timeout => Timeout
      end
  | None => Done (ok, e)
  end.

(** [IsDirectoryExists(path)]. *)
Definition IsDirectoryExists (t : stat_table) (p : string)
    : outcome (bool * option error) :=
  let '(ok, stat, e) := isExists t p in
  match e with
  | Some _ =>
      match stat_IsDir stat with
      | Done false =>
          Done (ok, Some (fmt_Errorf (p ++ " exists but is not a directory")))
      | Done true => Done (ok, e)
      | Panic m => Panic m
      | Timeout => Timeout
      end
  | None => Done (ok, e)
  end.

(** ** Concrete archives and files *)

(** An intact record. *)
Definition file_entry (n : string) (b : string) : tar.entry :=
  {| tar.name := n; tar.body := list_byte_of_string b; tar.fault := None |}.

(** [dir/a] (4 bytes), [dir/b] (6 bytes), [other/c]. *)
Definition tape_abc : tar.tape :=
  {| tar.entries := [file_entry "dir/a" "AAAA"; file_entry "dir/b" "BBBBBB";
                     file_entry "other/c" "CCC"];
     tar.stop := io_EOF |}.

(** [dir/a], [dir/sub/x]. *)
Definition tape_nested : tar.tape :=
  {| tar.entries := [file_entry "dir/a" "AAAA"; file_entry "dir/sub/x" "XX"];
     tar.stop := io_EOF |}.

(** [dir/a], and then a damaged header. *)
Definition tape_damaged : tar.tape :=
  {| tar.entries := [file_entry "dir/a" "AAAA"]; tar.stop := tar_ErrHeader |}.

(** Nothing after the directory but a damaged header. *)
Definition tape_bad_start : tar.tape :=
  {| tar.entries := []; tar.stop := tar_ErrHeader |}.

(** Another archive altogether. *)
Definition tape_foreign : tar.tape :=
  {| tar.entries := [file_entry "dir/z" "ZZ"]; tar.stop := io_EOF |}.

(** The header of the directory [dir]. *)
Definition dir_header : tar.Header := {| tar.Name := "dir/"; tar.Size := 0 |}.

(** A reader of [tape_foreign] standing on its first record. *)
Definition foreign_reader : tar.Reader :=
  snd (tar.Next (tar.NewReader true tape_foreign)).

(** A file that is no gzip stream, under a [.gz] name, and no file open. *)
Definition not_gzip : list byte := list_byte_of_string "plain text, no gzip".

Definition disk_not_gzip : os.state :=
  {| os.disk := {[ "data.tar.gz" := not_gzip ]}; os.open_files := ∅;
     os.next_fd := 3 |}.

(** A gzip Decompressor over the open descriptor 3 whose inflater has
    stopped on corrupt input, and the machine it lives on. *)
Definition corrupt_gz : Decompressor :=
  {| file := Some 3; reader := Some gz_Reader;
     closer := Some (gz_Closer (Some (flate_CorruptInputError 10))) |}.

Definition machine_fd3 : os.state :=
  {| os.disk := ∅; os.open_files := {[ 3 := [] ]}; os.next_fd := 4 |}.

(** The outcomes of successive [Read] calls on [dr] with buffers of the
    sizes [ns], up to the first call that does not return. *)
Fixpoint Read_calls (pkg_tr : option nat) (ns : list nat) (dr : dirReader)
    (h : heap) : list (outcome read_result) :=
  match ns with
  | [] => []
  | n :: ns' =>
      match dirReader_Read pkg_tr dr n h with
      | Done (r, dr', h') => Done r :: Read_calls pkg_tr ns' dr' h'
      | Panic m => [Panic m]
      | Timeout => [Timeout]
      end
  end.

(** A heap with a fresh reader of the tape [t] at address 1 and
    [foreign_reader] at address 2, and the [dirReader] opened on [dir] with
    the reader at address 1. *)
Definition two_readers (eager_eof : bool) (t : tar.tape) : heap :=
  <[2 := foreign_reader]> {[ 1 := tar.NewReader eager_eof t ]}.

Definition open_dir (eager_eof : bool) (t : tar.tape)
    : outcome (dirReader * heap) :=
  DirReader (Some 1) (Some dir_header) (two_readers eager_eof t).

(** Open [dir] on [t] and call [Read] with buffers of the sizes [ns]. *)
Definition session (pkg_tr : option nat) (eager_eof : bool) (t : tar.tape)
    (ns : list nat) : list (outcome read_result) :=
  match open_dir eager_eof t with
  | Done (dr, h) => Read_calls pkg_tr ns dr h
  | Panic m => [Panic m]
  | Timeout => [Timeout]
  end.

(** Open [dir] on [t] and read it to exhaustion with a buffer of [n]
    bytes. *)
Definition drain (pkg_tr : option nat) (eager_eof : bool) (t : tar.tape)
    (n : nat) : outcome read_result :=
  match open_dir eager_eof t with
  | Done (dr, h) =>
      match read_out 64 pkg_tr dr n h [] with
      | Done (r, _, _) => Done r
      | Panic m => Panic m
      | Timeout => Timeout
      end
  | Panic m => Panic m
  | Timeout => Timeout
  end.

(** * Properties *)

(** ** The entry scanner and ReadAll *)

Section TarReader.

Variable tr0 : tar.Reader.

Lemma Next_sticky e :
  tar.err tr0 = Some e -> tar.Next tr0 = ((None, Some e), tr0).
Proof. intros H. unfold tar.Next. now rewrite H. Qed.

Lemma Next_header_or_error hd e tr' :
  tar.Next tr0 = ((hd, e), tr') ->
  (hd = None /\ e <> None) \/ (hd <> None /\ e = None).
Proof.
  unfold tar.Next.
  destruct (tar.err tr0); [intros [= <- <- _]; now left|].
  destruct (tar.curr_fault tr0); [intros [= <- <- _]; now left|].
  destruct (tar.pending tr0); intros [= <- <- _]; [now left | now right].
Qed.

Lemma Next_pending hd tr' :
  tar.Next tr0 = ((hd, None), tr') ->
  S (length (tar.pending tr')) = length (tar.pending tr0).
Proof.
  unfold tar.Next.
  destruct (tar.err tr0); [discriminate|].
  destruct (tar.curr_fault tr0); [discriminate|].
  destruct (tar.pending tr0); [discriminate|].
  intros [= _ <-]. reflexivity.
Qed.

Lemma Read_pending n r tr' :
  tar.Read n tr0 = (r, tr') -> tar.pending tr' = tar.pending tr0.
Proof.
  unfold tar.Read.
  destruct (tar.err tr0); [now intros [= _ <-]|].
  destruct (skipn n (tar.curr tr0)); [|now intros [= _ <-]].
  destruct (firstn n (tar.curr tr0)).
  - intros [= _ <-]. now destruct (decide _).
  - destruct (tar.eager tr0); intros [= _ <-]; [|reflexivity].
    now destruct (decide _).
Qed.

End TarReader.

Lemma firstn_skipn_nil {A} n (l : list A) : skipn n l = [] -> firstn n l = l.
Proof.
  intros H. rewrite <- (firstn_skipn n l) at 2. rewrite H.
  now rewrite app_nil_r.
Qed.

Lemma skipn_shorter {A} n (l : list A) x rest :
  (0 < n)%nat -> skipn n l = x :: rest -> (length (x :: rest) < length l)%nat.
Proof.
  intros Hn H. rewrite <- H, length_skipn.
  assert (length l <> 0)%nat
    by (destruct l; [now rewrite skipn_nil in H | discriminate]).
  lia.
Qed.

(** [ReadAll] on an intact body returns all of it that is unread, with a
    nil error, whichever way the library reports the end of a body. *)
Lemma ReadAll_loop_sound fuel : forall acc tr,
  sound tr ->
  (length (tar.curr tr) + 2 <= fuel)%nat ->
  ReadAll_loop fuel acc tr =
    Done ((acc ++ tar.curr tr, None), tar.set_curr [] tr).
Proof.
  induction fuel as [|fuel IH]; intros acc tr [He Hf] Hfuel; [lia|].
  cbn [ReadAll_loop]. unfold tar.Read, tar.body_end. rewrite He, Hf.
  destruct (skipn MinRead (tar.curr tr)) as [|x rest] eqn:Hs.
  - rewrite (firstn_skipn_nil _ _ Hs).
    destruct (tar.curr tr) as [|c cs] eqn:Hc.
    + rewrite decide_True by reflexivity. reflexivity.
    + destruct (tar.eager tr).
      * rewrite decide_True by reflexivity. reflexivity.
      * rewrite IH.
        -- cbn. now rewrite app_nil_r.
        -- split; [exact He | exact Hf].
        -- cbn in *. lia.
  - rewrite IH.
    + cbn. now rewrite <- app_assoc, <- Hs, firstn_skipn.
    + split; [exact He | exact Hf].
    + pose proof (skipn_shorter MinRead _ _ _ ltac:(unfold MinRead; lia) Hs).
      cbn [tar.set_curr tar.curr]. lia.
Qed.

Lemma ReadAll_sound tr :
  sound tr ->
  ReadAll tr = Done ((tar.curr tr, None), tar.set_curr [] tr).
Proof.
  intros H. unfold ReadAll. now rewrite ReadAll_loop_sound by (auto; lia).
Qed.

(** [ReadAll] returns on every reader. *)
Lemma ReadAll_loop_total fuel : forall acc tr,
  (length (tar.curr tr) + 2 <= fuel)%nat ->
  exists r, ReadAll_loop fuel acc tr = Done r.
Proof.
  induction fuel as [|fuel IH]; intros acc tr Hfuel; [lia|].
  cbn [ReadAll_loop]. unfold tar.Read.
  destruct (tar.err tr) as [e|]; [destruct e; eauto|].
  destruct (skipn MinRead (tar.curr tr)) as [|x rest] eqn:Hs.
  - rewrite (firstn_skipn_nil _ _ Hs).
    destruct (tar.curr tr) as [|c cs] eqn:Hc.
    + destruct (tar.body_end tr); eauto.
    + destruct (tar.eager tr); [destruct (tar.body_end tr); eauto|].
      apply IH. cbn in *. lia.
  - apply IH.
    pose proof (skipn_shorter MinRead _ _ _ ltac:(unfold MinRead; lia) Hs).
    cbn [tar.set_curr tar.curr]. lia.
Qed.

Lemma ReadAll_total tr : exists r, ReadAll tr = Done r.
Proof. apply ReadAll_loop_total. lia. Qed.

(** ** ReadFileFromTar *)

Lemma ReadFileFromTar_loop_found file e post : forall pre fuel tr,
  sound tr ->
  tar.pending tr = pre ++ e :: post ->
  Forall (passed_over file) pre ->
  tar.name e = file -> tar.fault e = None ->
  (length pre + 1 <= fuel)%nat ->
  ReadFileFromTar_loop fuel tr file =
    Done ((tar.body e, None), scanned tr (S (length pre)) post).
Proof.
  induction pre as [|x pre IH]; intros fuel tr [He Hf] Hp Hpre Hn Hfe Hfuel;
    (destruct fuel as [|fuel]; [cbn in Hfuel; lia|]);
    cbn [ReadFileFromTar_loop]; unfold tar.Next; rewrite He, Hf, Hp;
    cbn -[ReadAll].
  - rewrite decide_True by exact Hn.
    rewrite ReadAll_sound by (split; [reflexivity | exact Hfe]).
    unfold scanned, tar.set_curr. cbn. now rewrite Hfe.
  - inversion Hpre as [|? ? [Hx Hxf] Hpre']; subst.
    rewrite decide_False by exact Hx.
    rewrite (IH fuel); cbn; try reflexivity; try assumption.
    + unfold scanned. cbn. do 2 f_equal. f_equal. lia.
    + split; [reflexivity | exact Hxf].
    + cbn in Hfuel. lia.
Qed.

Lemma ReadFileFromTar_loop_absent file : forall es fuel tr,
  sound tr ->
  tar.pending tr = es ->
  tar.stop_err tr = io_EOF ->
  Forall (passed_over file) es ->
  (length es + 1 <= fuel)%nat ->
  exists tr',
    ReadFileFromTar_loop fuel tr file = Done (([], Some (not_found file)), tr')
    /\ tar.pending tr' = []
    /\ tar.err tr' = Some io_EOF
    /\ tar.advances tr' = (length es + tar.advances tr)%nat.
Proof.
  induction es as [|x es IH]; intros fuel tr [He Hf] Hp Hs Hes Hfuel;
    (destruct fuel as [|fuel]; [cbn in Hfuel; lia|]);
    cbn [ReadFileFromTar_loop]; unfold tar.Next; rewrite He, Hf, Hp;
    cbn -[ReadAll].
  - rewrite Hs. eexists. split; [reflexivity|]. cbn. auto.
  - inversion Hes as [|? ? [Hx Hxf] Hes']; subst.
    rewrite decide_False by exact Hx.
    edestruct (IH fuel) as (tr' & Hr & Hp' & He' & Ha'); cycle 5.
    + exists tr'. rewrite Hr. repeat split; try assumption.
      rewrite Ha'. cbn. lia.
    + split; [reflexivity | exact Hxf].
    + reflexivity.
    + exact Hs.
    + exact Hes'.
    + cbn in Hfuel. lia.
Qed.

(** [ReadFileFromTar] returns on every tape: the fuel of its loop is
    enough. *)
Lemma ReadFileFromTar_loop_total file fuel : forall tr,
  (length (tar.pending tr) + 1 <= fuel)%nat ->
  exists r, ReadFileFromTar_loop fuel tr file = Done r.
Proof.
  induction fuel as [|fuel IH]; intros tr Hfuel; [lia|].
  cbn [ReadFileFromTar_loop].
  destruct (tar.Next tr) as [[hd e] tr1] eqn:HN.
  destruct e as [e|]; [destruct e; eauto|].
  destruct (Next_header_or_error _ _ _ _ HN) as [[_ H]|[H _]];
    [congruence|].
  destruct hd as [hd|]; [|congruence].
  destruct (decide _).
  - destruct (ReadAll_total tr1) as [[[bytes [e2|]] tr2] ->]; eauto.
  - apply IH. apply Next_pending in HN. lia.
Qed.

Lemma ReadFileFromTar_total eager_eof r file :
  exists res, ReadFileFromTar eager_eof r file = Done res.
Proof. apply ReadFileFromTar_loop_total. lia. Qed.

(** ** dirReader: single calls of Read *)

Section DirReaderRead.

Variable pkg_tr : option nat.

Lemma deref_store_same p r (h : heap) :
  p <> None -> deref p (store p r h) = Some r.
Proof.
  destruct p as [l|]; [|congruence]. intros _. cbn. apply lookup_insert_eq.
Qed.

Lemma deref_store p q r (h : heap) :
  deref p (store q r h) = if decide (p = q) then
                            match q with Some _ => Some r | None => None end
                          else deref p h.
Proof.
  destruct p as [l|], q as [l'|]; cbn; try reflexivity.
  rewrite lookup_insert. destruct (decide (l' = l)) as [->|Hne].
  - now rewrite decide_True.
  - rewrite decide_False by congruence. reflexivity.
Qed.

(** A deferred error is returned at once and cleared. *)
Lemma Read_deferred dr n (h : heap) e :
  err dr = Some e ->
  dirReader_Read pkg_tr dr n h = Done (([], Some e), clear_err dr, h).
Proof. intros H. unfold dirReader_Read. now rewrite H. Qed.

(** Without a deferred error and without a current header, [Read]
    dereferences the nil [dr.hdr]. *)
Lemma Read_nil_hdr dr n (h : heap) :
  err dr = None -> hdr dr = None ->
  dirReader_Read pkg_tr dr n h = Panic nil_deref.
Proof.
  intros He Hh. unfold dirReader_Read. rewrite He. cbn. now rewrite Hh.
Qed.

(** On an entry outside the directory, [Read] returns end-of-stream and
    changes nothing. *)
Lemma Read_Exhausted dr n (h : heap) :
  Exhausted dr ->
  dirReader_Read pkg_tr dr n h = Done (([], Some io_EOF), dr, h).
Proof.
  intros [He (hd & Hh & Hd)]. unfold dirReader_Read. rewrite He. cbn.
  rewrite Hh. now rewrite decide_False.
Qed.

(** No [Read] that returns leaves a deferred error behind. *)
Lemma Read_loop_err fuel n : forall dr (h : heap) r dr' h',
  err dr = None ->
  dirReader_Read_loop fuel pkg_tr dr n h = Done (r, dr', h') ->
  err dr' = None.
Proof.
  induction fuel as [|fuel IH]; intros dr h r dr' h' He; [discriminate|].
  cbn [dirReader_Read_loop].
  destruct (hdr dr) as [hd|]; [|discriminate].
  destruct (decide _); [|now intros [= _ <- _]].
  destruct (deref pkg_tr h) as [r0|]; [|discriminate].
  destruct (tar.Read n r0) as [[data er] r1].
  destruct data; [|now intros [= _ <- _]].
  destruct (is_EOF er); [|now intros [= _ <- _]].
  destruct (deref (tr dr) _) as [r2|]; [|discriminate].
  destruct (tar.Next r2) as [[hd' e'] r2'].
  destruct e'; [now intros [= _ <- _]|].
  apply IH. exact He.
Qed.

Lemma Read_err dr n (h : heap) r dr' h' :
  dirReader_Read pkg_tr dr n h = Done (r, dr', h') -> err dr' = None.
Proof.
  unfold dirReader_Read. destruct (err dr) eqn:He.
  - now intros [= _ <- _].
  - now apply Read_loop_err.
Qed.

(** [Read] returns or panics on every state: the fuel of its loop is
    enough. *)
Lemma Read_loop_total fuel n : forall dr (h : heap),
  (ahead dr h + 1 <= fuel)%nat ->
  dirReader_Read_loop fuel pkg_tr dr n h <> Timeout.
Proof.
  induction fuel as [|fuel IH]; intros dr h Hfuel; [lia|].
  cbn [dirReader_Read_loop].
  destruct (hdr dr) as [hd|]; [|discriminate].
  destruct (decide _); [|discriminate].
  destruct (deref pkg_tr h) as [r0|] eqn:H0; [|discriminate].
  destruct (tar.Read n r0) as [[data er] r1] eqn:HR.
  destruct data; [|discriminate].
  destruct (is_EOF er); [|discriminate].
  destruct (deref (tr dr) _) as [r2|] eqn:H2; [|discriminate].
  destruct (tar.Next r2) as [[hd' e'] r2'] eqn:HN.
  destruct e'; [discriminate|].
  apply IH. apply Next_pending in HN. apply Read_pending in HR.
  assert (Hne : tr dr <> None) by (intros E; now rewrite E in H2).
  unfold ahead in *. cbn [set_hdr tr]. rewrite deref_store_same by exact Hne.
  rewrite deref_store in H2. destruct (decide (tr dr = pkg_tr)) as [E|E].
  - rewrite <- E in H2, H0. rewrite H0 in Hfuel.
    destruct (tr dr); [|congruence]. injection H2 as <-.
    rewrite HR in HN. lia.
  - rewrite H2 in Hfuel. lia.
Qed.

Lemma Read_total dr n (h : heap) : dirReader_Read pkg_tr dr n h <> Timeout.
Proof.
  unfold dirReader_Read. destruct (err dr); [discriminate|].
  apply Read_loop_total. lia.
Qed.

(** Once exhausted, the reader answers every further call the same way
    and stays as it is. *)
Lemma reads_trace_Exhausted dr (h : heap) rs dr' h' :
  Exhausted dr ->
  reads_trace pkg_tr dr h rs dr' h' ->
  Forall (fun r : read_result => r = ([], Some io_EOF)) rs /\ dr' = dr /\ h' = h.
Proof.
  intros Hx Ht. induction Ht as [|dr h n r dr1 h1 rs dr2 h2 HR _ IH].
  - auto.
  - rewrite Read_Exhausted in HR by exact Hx. injection HR as <- <- <-.
    destruct (IH Hx) as (Hrs & -> & ->). auto.
Qed.

(** After a failed advance has been reported there is no call of [Read]
    that returns. *)
Lemma reads_trace_nil_hdr dr (h : heap) rs dr' h' :
  err dr = None -> hdr dr = None ->
  reads_trace pkg_tr dr h rs dr' h' -> rs = [].
Proof.
  intros He Hh Ht. destruct Ht as [|dr h n r dr1 h1 rs dr2 h2 HR _];
    [reflexivity|].
  rewrite Read_nil_hdr in HR by assumption. discriminate.
Qed.

End DirReaderRead.

(** ** Decompressor *)

(** A failing inner close ends [Close] before the file is reached. *)
Lemma Close_inner_error d c e (s : os.state) :
  closer d = Some c -> Closer_Close c = Some e ->
  Decompressor_Close d s = (Some e, s).
Proof. intros Hc He. unfold Decompressor_Close. now rewrite Hc, He. Qed.

(** With no inner closer, or one that closes cleanly, [Close] is the close
    of the file. *)
Lemma Close_reaches_file d (s : os.state) :
  (forall c, closer d = Some c -> Closer_Close c = None) ->
  Decompressor_Close d s = os.Close (file d) s.
Proof.
  intros H. unfold Decompressor_Close. destruct (closer d) as [c|]; auto.
  now rewrite (H c).
Qed.

(** C1: on a gzip Decompressor whose inflater stopped on corrupt input,
    [Close] returns the error of the inner close and leaves the machine
    untouched: descriptor 3, the base file, is still open afterwards.
    The specification wants the base file closed all the same. *)
Theorem Close_inner_error_leaves_file_open :
  os.is_open 3 machine_fd3 = true /\
  Decompressor_Close corrupt_gz machine_fd3
    = (Some (flate_CorruptInputError 10), machine_fd3) /\
  os.is_open 3 (snd (Decompressor_Close corrupt_gz machine_fd3)) = true.
Proof. repeat split; vm_compute; reflexivity. Qed.

(** When [os.Open] succeeds, the descriptor it returned is open. *)
Lemma Open_is_open name (s : os.state) fd s1 :
  os.Open name s = ((Some fd, None), s1) -> os.is_open fd s1 = true.
Proof.
  unfold os.Open. destruct (os.disk s !! name); [|discriminate].
  intros [= <- <-]. unfold os.is_open. cbn. apply bool_decide_eq_true.
  rewrite lookup_insert_eq. eauto.
Qed.

(** X23: whatever [NewDecompressor] returns, it has closed no file: it
    leaves the machine as [os.Open] left it, on success and on every
    failure. *)
Lemma NewDecompressor_closes_nothing lzma_ret filepath (s : os.state) :
  snd (NewDecompressor lzma_ret filepath s) = snd (os.Open filepath s).
Proof.
  unfold NewDecompressor. destruct (os.Open filepath s) as [[f e] s1].
  destruct e; [reflexivity|]. cbn [snd].
  repeat (destruct (decide _); [try destruct (lzma_NewReader _);
    try destruct (gzip_NewReader _); reflexivity|]).
  reflexivity.
Qed.

(** C2: on [data.tar.gz] holding plain text, the file opens (as
    descriptor 3), [gzip.NewReader] rejects the header, and
    [NewDecompressor] returns a nil Decompressor and [gzip.ErrHeader] with
    descriptor 3 still open. The specification wants the base file released before
    the return. *)
Theorem NewDecompressor_rejected_header_leaves_file_open :
  fst (os.Open "data.tar.gz" disk_not_gzip) = (Some 3, None) /\
  fst (NewDecompressor 0 "data.tar.gz" disk_not_gzip)
    = (None, Some gzip_ErrHeader) /\
  os.is_open 3 (snd (NewDecompressor 0 "data.tar.gz" disk_not_gzip)) = true.
Proof. repeat split; vm_compute; reflexivity. Qed.

(** ** ReadFileFromTar: the claims *)

(** C5: in an archive of intact records whose record [k] is the first
    named [file] (byte for byte), [ReadFileFromTar] returns exactly the
    stored body of that record with a nil error; the scan has decoded [k]
    headers and the records after [k] are still ahead of the reader,
    untouched. *)
Theorem ReadFileFromTar_returns_first_match
    eager_eof (pre : list tar.entry) e post stop_at file :
  Forall (passed_over file) pre ->
  tar.name e = file -> tar.fault e = None ->
  exists tr',
    ReadFileFromTar eager_eof
      {| tar.entries := pre ++ e :: post; tar.stop := stop_at |} file
      = Done ((tar.body e, None), tr') /\
    tar.advances tr' = S (length pre) /\
    tar.pending tr' = post.
Proof.
  intros Hpre Hn Hf. eexists. split; [|split].
  - unfold ReadFileFromTar.
    apply ReadFileFromTar_loop_found with (pre := pre); auto.
    + split; reflexivity.
    + cbn. rewrite length_app. cbn. lia.
  - cbn. lia.
  - reflexivity.
Qed.

Lemma ReadFileFromTar_returns_first_match_witness :
  Forall (passed_over "dir/b") [file_entry "dir/a" "AAAA"] /\
  tar.name (file_entry "dir/b" "BBBBBB") = "dir/b" /\
  tar.fault (file_entry "dir/b" "BBBBBB") = None /\
  exists tr',
    ReadFileFromTar false tape_abc "dir/b"
      = Done ((list_byte_of_string "BBBBBB", None), tr') /\
    tar.advances tr' = 2 /\
    tar.pending tr' = [file_entry "other/c" "CCC"].
Proof.
  assert (H : Forall (passed_over "dir/b") [file_entry "dir/a" "AAAA"]).
  { constructor; [|constructor]. split; [discriminate | reflexivity]. }
  split; [exact H|]. split; [reflexivity|]. split; [reflexivity|].
  exact (ReadFileFromTar_returns_first_match false
           [file_entry "dir/a" "AAAA"] (file_entry "dir/b" "BBBBBB")
           [file_entry "other/c" "CCC"] io_EOF "dir/b"
           H eq_refl eq_refl).
Defined.

(** C9: in an archive of [N] intact records, none of them named [file],
    closed by its end marker, [ReadFileFromTar] fails with the error
    "file '<file>' not found", which is no scan error; the scan has
    decoded all [N] headers and stopped on the end marker. *)
Theorem ReadFileFromTar_not_found eager_eof (es : list tar.entry) file :
  Forall (passed_over file) es ->
  exists tr',
    ReadFileFromTar eager_eof {| tar.entries := es; tar.stop := io_EOF |} file
      = Done (([], Some (fmt_Errorf ("file '" ++ file ++ "' not found"))), tr')
    /\ tar.advances tr' = length es
    /\ tar.pending tr' = []
    /\ tar.err tr' = Some io_EOF.
Proof.
  intros Hes. unfold ReadFileFromTar.
  destruct (ReadFileFromTar_loop_absent file es
              (S (S (length es)))
              (tar.NewReader eager_eof
                 {| tar.entries := es; tar.stop := io_EOF |}))
    as (tr' & Hr & Hp & He & Ha); try reflexivity; auto.
  - split; reflexivity.
  - lia.
  - exists tr'. cbn in *. rewrite Hr. repeat split; auto. lia.
Qed.

Lemma ReadFileFromTar_not_found_witness :
  Forall (passed_over "dir/q") (tar.entries tape_abc) /\
  exists tr',
    ReadFileFromTar true tape_abc "dir/q"
      = Done (([], Some (fmt_Errorf "file 'dir/q' not found")), tr')
    /\ tar.advances tr' = 3
    /\ tar.pending tr' = []
    /\ tar.err tr' = Some io_EOF.
Proof.
  assert (H : Forall (passed_over "dir/q") (tar.entries tape_abc)).
  { repeat constructor; discriminate. }
  split; [exact H|].
  exact (ReadFileFromTar_not_found true (tar.entries tape_abc) "dir/q" H).
Defined.

(** ** dirReader: the claims *)

(** A [Read] that returns end-of-stream with a current header in place,
    no error having been deferred, has met an entry outside the
    directory: the reader is [Exhausted]. *)
Lemma Read_loop_EOF_Exhausted pkg_tr fuel n : forall dr (h : heap) dr' h',
  err dr = None ->
  dirReader_Read_loop fuel pkg_tr dr n h = Done (([], Some io_EOF), dr', h') ->
  hdr dr' <> None ->
  Exhausted dr'.
Proof.
  induction fuel as [|fuel IH]; intros dr h dr' h' He; [discriminate|].
  cbn [dirReader_Read_loop].
  destruct (hdr dr) as [hd|] eqn:Hh; [|discriminate].
  destruct (decide _) as [Hd|Hd].
  - destruct (deref pkg_tr h) as [r0|]; [|discriminate].
    destruct (tar.Read n r0) as [[data er] r1].
    destruct data; [|discriminate].
    destruct (is_EOF er) eqn:Her.
    + destruct (deref (tr dr) _) as [r2|]; [|discriminate].
      destruct (tar.Next r2) as [[hd' e'] r2'] eqn:HN.
      destruct e' as [e'|].
      * intros [= _ <- _] Hnn. cbn in Hnn.
        destruct (Next_header_or_error _ _ _ _ HN) as [[-> _]|[_ H]];
          congruence.
      * apply IH. exact He.
    + intros [= -> _ _]. discriminate.
  - intros [= <- _] _. split; [exact He|]. eauto.
Qed.

(** C8: once the reader is [Exhausted] (the state in which [Read] returns
    end-of-stream because the current entry lies outside the directory),
    every further [Read], after any number of calls with buffers of any
    sizes, returns no data and end-of-stream and no other error, and
    leaves the reader [Exhausted]. *)
Theorem Exhausted_is_terminal pkg_tr dr (h : heap) rs dr' h' :
  Exhausted dr ->
  reads_trace pkg_tr dr h rs dr' h' ->
  Forall (fun r : read_result => r = ([], Some io_EOF)) rs /\
  Exhausted dr' /\
  forall n, dirReader_Read pkg_tr dr' n h' = Done (([], Some io_EOF), dr', h').
Proof.
  intros Hx Ht.
  destruct (reads_trace_Exhausted pkg_tr dr h rs dr' h' Hx Ht)
    as (Hrs & -> & ->).
  repeat split; try apply Hx; auto.
  intros n. now apply Read_Exhausted.
Qed.

Lemma Exhausted_is_terminal_witness :
  let dr := {| tr := Some 1;
               hdr := Some {| tar.Name := "other/c"; tar.Size := 3 |};
               base := "dir"; err := None |} in
  let eof : read_result := ([], Some io_EOF) in
  Exhausted dr /\
  reads_trace (Some 1) dr ∅ [eof; eof] dr ∅ /\
  (Forall (fun r => r = eof) [eof; eof]
   /\ Exhausted dr
   /\ forall n, dirReader_Read (Some 1) dr n ∅ = Done (eof, dr, ∅)).
Proof.
  intros dr eof.
  assert (Hx : Exhausted dr).
  { split; [reflexivity|]. eexists. split; [reflexivity|].
    vm_compute. discriminate. }
  assert (Ht : reads_trace (Some 1) dr ∅ [eof; eof] dr ∅).
  { apply reads_cons with (n := 8) (dr1 := dr) (h1 := ∅); [reflexivity|].
    apply reads_cons with (n := 0) (dr1 := dr) (h1 := ∅); [reflexivity|].
    apply reads_nil. }
  split; [exact Hx|]. split; [exact Ht|].
  exact (Exhausted_is_terminal (Some 1) dr ∅ _ dr ∅ Hx Ht).
Defined.

(** C6: when the advance made by [DirReader] fails with [e],
    [DirReader] still returns a reader; the first [Read] returns [e] with
    no data and clears the deferred error; and no later [Read] returns [e]
    again. (In fact no later [Read] returns: the failed advance left no
    header, and the next call dereferences it.) *)
Theorem DirReader_defers_advance_error
    pkg_tr l r (h : heap) dh e :
  h !! l = Some r ->
  snd (fst (tar.Next r)) = Some e ->
  exists dr h1,
    DirReader (Some l) (Some dh) h = Done (dr, h1) /\
    (forall n,
       dirReader_Read pkg_tr dr n h1 = Done (([], Some e), clear_err dr, h1)) /\
    err (clear_err dr) = None /\
    (forall rs dr' h',
       reads_trace pkg_tr (clear_err dr) h1 rs dr' h' ->
       Forall (fun r' : read_result => snd r' <> Some e) rs) /\
    (forall n, dirReader_Read pkg_tr (clear_err dr) n h1 = Panic nil_deref).
Proof.
  intros Hl HN.
  destruct (tar.Next r) as [[hd e'] r'] eqn:HNr. cbn in HN. subst e'.
  destruct (Next_header_or_error _ _ _ _ HNr) as [[-> _]|[_ H]];
    [|discriminate].
  exists {| tr := Some l; hdr := None; base := path.Clean (tar.Name dh);
            err := Some e |}, (<[l := r']> h).
  split; [|split; [|split; [|split]]].
  - unfold DirReader. cbn. now rewrite Hl, HNr.
  - intros n. now apply Read_deferred.
  - reflexivity.
  - intros rs dr' h' Ht.
    apply reads_trace_nil_hdr in Ht; [subst rs; constructor | | ]; reflexivity.
  - intros n. now apply Read_nil_hdr.
Qed.

Lemma DirReader_defers_advance_error_witness :
  two_readers true tape_bad_start !! 1
    = Some (tar.NewReader true tape_bad_start) /\
  snd (fst (tar.Next (tar.NewReader true tape_bad_start)))
    = Some tar_ErrHeader /\
  exists dr h1,
    DirReader (Some 1) (Some dir_header) (two_readers true tape_bad_start)
      = Done (dr, h1) /\
    (forall n,
       dirReader_Read (Some 1) dr n h1
         = Done (([], Some tar_ErrHeader), clear_err dr, h1)) /\
    err (clear_err dr) = None /\
    (forall rs dr' h',
       reads_trace (Some 1) (clear_err dr) h1 rs dr' h' ->
       Forall (fun r' : read_result => snd r' <> Some tar_ErrHeader) rs) /\
    (forall n, dirReader_Read (Some 1) (clear_err dr) n h1 = Panic nil_deref).
Proof.
  split; [reflexivity|]. split; [reflexivity|].
  exact (DirReader_defers_advance_error (Some 1) 1
           (tar.NewReader true tape_bad_start)
           (two_readers true tape_bad_start) dir_header tar_ErrHeader
           eq_refl eq_refl).
Defined.

(** When the identifier [tr] of the package block is nil, a [Read] that
    reaches the body of an entry of the directory panics. *)
Lemma Read_nil_pkg_tr dr hd n (h : heap) :
  err dr = None -> hdr dr = Some hd -> path.Dir (tar.Name hd) = base dr ->
  dirReader_Read None dr n h = Panic nil_deref.
Proof.
  intros He Hh Hd. unfold dirReader_Read. rewrite He. cbn. rewrite Hh.
  now rewrite decide_True.
Qed.

(** X22: a [Read] that returns and leaves no current header behind (it
    has reported the end of the tape or a failed advance, or the error
    deferred at construction) has made the reader unusable: every further
    [Read] panics. *)
Lemma Read_after_lost_header pkg_tr dr n (h : heap) r dr' h' :
  dirReader_Read pkg_tr dr n h = Done (r, dr', h') ->
  hdr dr' = None ->
  forall n', dirReader_Read pkg_tr dr' n' h' = Panic nil_deref.
Proof.
  intros HR Hh n'. apply Read_nil_hdr; [|exact Hh].
  eapply Read_err; exact HR.
Qed.

(** C3: on [dir/a] followed by a damaged header, with [tr] standing for
    the reader's own scanner: the first [Read] returns the body of
    [dir/a], the second returns the error of the failed advance, and the
    third dereferences the header that this advance left nil and panics.
    The specification wants it to return end-of-stream or an error. *)
Theorem Read_after_advance_error_panics (eager_eof : bool) :
  session (Some 1) eager_eof tape_damaged [8; 8; 8]
    = [Done (list_byte_of_string "AAAA", None);
       Done ([], Some tar_ErrHeader);
       Panic nil_deref].
Proof. destruct eager_eof; vm_compute; reflexivity. Qed.

(** C10: a reader built on the scanner at address 1 (standing on [dir/a],
    body [AAAA]), with the identifier [tr] of the package block standing
    for the scanner at address 2: [Read] returns [ZZ], the body under the
    scanner at address 2, which is consumed, and the body under the
    reader's own scanner is as unread as before. The specification wants the bytes
    to come from the reader's own scanner. *)
Theorem Read_takes_bytes_from_package_tr (eager_eof : bool) :
  exists dr h h',
    open_dir eager_eof tape_abc = Done (dr, h) /\
    tr dr = Some 1 /\
    tar.curr <$> h !! 1 = Some (list_byte_of_string "AAAA") /\
    tar.curr <$> h !! 2 = Some (list_byte_of_string "ZZ") /\
    dirReader_Read (Some 2) dr 4096 h
      = Done ((list_byte_of_string "ZZ", None), dr, h') /\
    tar.curr <$> h' !! 1 = Some (list_byte_of_string "AAAA") /\
    tar.curr <$> h' !! 2 = Some [].
Proof.
  destruct eager_eof; do 3 eexists; repeat split; vm_compute; reflexivity.
Qed.

(** C4: on [dir/a] (4 bytes), [dir/b] (6 bytes), [other/c], reading the
    reader opened on [dir] to exhaustion panics at the first [Read] when
    the identifier [tr] of the package block is nil, and yields the two
    bytes [ZZ] of another archive and then end-of-stream when it stands
    for the scanner at address 2. The specification wants the ten bytes
    [AAAABBBBBB]. *)
Theorem drain_abc_reads_package_tr (eager_eof : bool) (n : nat) :
  drain None eager_eof tape_abc n = Panic nil_deref /\
  drain (Some 2) eager_eof tape_abc 4096
    = Done (list_byte_of_string "ZZ", Some io_EOF).
Proof. destruct eager_eof; split; vm_compute; reflexivity. Qed.

(** C7: on [dir/a], [dir/sub/x], the first [Read] of the reader opened
    on [dir] panics when the identifier [tr] of the package block is nil,
    and returns the bytes [ZZ] of another archive when it stands for the
    scanner at address 2. The specification wants the body of [dir/a]. *)
Theorem session_nested_reads_package_tr (eager_eof : bool) (n : nat) :
  session None eager_eof tape_nested [n] = [Panic nil_deref] /\
  session (Some 2) eager_eof tape_nested [4096; 4096]
    = [Done (list_byte_of_string "ZZ", None); Done ([], Some io_EOF)].
Proof. destruct eager_eof; split; vm_compute; reflexivity. Qed.

(** What the spec describes is what [Read] does when [tr] stands for the
    reader's own scanner. *)
Example drain_abc_own_scanner :
  Forall (fun '(eager_eof, n) =>
            drain (Some 1) eager_eof tape_abc n
              = Done (list_byte_of_string "AAAABBBBBB", Some io_EOF))
    [(true, 1); (false, 1); (true, 3); (false, 4); (true, 6); (false, 10);
     (true, 512); (false, 4096)].
Proof. repeat constructor. Qed.

Example session_nested_own_scanner :
  Forall (fun eager_eof =>
            session (Some 1) eager_eof tape_nested [4096; 4096; 4096]
              = [Done (list_byte_of_string "AAAA", None);
                 Done ([], Some io_EOF); Done ([], Some io_EOF)])
    [true; false].
Proof. repeat constructor. Qed.

(** ** dirReader when [tr] stands for the reader's own scanner *)

Section OwnScanner.

Variable l : nat.
Variable n : nat.
Hypothesis n_pos : (0 < n)%nat.

Lemma set_curr_nil_id r : tar.curr r = [] -> tar.set_curr [] r = r.
Proof. destruct r; cbn; now intros ->. Qed.

Lemma Next_own r x ps :
  sound r -> tar.pending r = x :: ps ->
  tar.Next r =
    ((Some {| tar.Name := tar.name x; tar.Size := length (tar.body x) |},
      None),
     {| tar.pending := ps; tar.stop_err := tar.stop_err r;
        tar.curr := tar.body x; tar.curr_fault := tar.fault x;
        tar.err := None; tar.eager := tar.eager r;
        tar.advances := S (tar.advances r) |}).
Proof. intros [He Hf] Hp. unfold tar.Next. now rewrite He, Hf, Hp. Qed.

(** The first round of the loop of [Read] when the current body is read
    to its end: [tr.Read] reports end-of-stream and the scanner is
    advanced. *)
Lemma Read_loop_own_advance fuel dr (h : heap) r :
  standing l dr h r -> tar.curr r = [] ->
  dirReader_Read_loop (S fuel) (Some l) dr n h =
    let '((hd', e'), r') := tar.Next r in
    match e' with
    | Some _ => Done (([], e'), set_hdr hd' dr, <[l := r']> h)
    | None =>
        dirReader_Read_loop fuel (Some l) (set_hdr hd' dr) n (<[l := r']> h)
    end.
Proof.
  intros (Ht & He & Hl & [Hre Hrf] & hd & Hh & Hd) Hc.
  cbn [dirReader_Read_loop].
  rewrite Hh, decide_True by exact Hd. cbn [deref mbind option_bind].
  rewrite Hl. unfold tar.Read, tar.body_end. rewrite Hre, Hrf, Hc.
  rewrite firstn_nil, skipn_nil, decide_True by reflexivity.
  cbn [is_EOF store]. rewrite Ht. cbn [deref mbind option_bind].
  rewrite lookup_insert_eq, set_curr_nil_id by exact Hc.
  destruct (tar.Next r) as [[hd' e'] r'].
  cbn [store]. rewrite insert_insert_eq. reflexivity.
Qed.

(** With bytes of the current body unread, [Read] returns the first [n]
    of them (fewer if fewer are left). *)
Lemma Read_own_body dr (h : heap) r c cs :
  standing l dr h r -> tar.curr r = c :: cs ->
  dirReader_Read (Some l) dr n h
    = Done ((firstn n (c :: cs), None), dr,
            <[l := tar.set_curr (skipn n (c :: cs)) r]> h).
Proof.
  intros (Ht & He & Hl & [Hre Hrf] & hd & Hh & Hd) Hc.
  unfold dirReader_Read. rewrite He. cbn [dirReader_Read_loop].
  rewrite Hh, decide_True by exact Hd. cbn [deref mbind option_bind].
  rewrite Hl. unfold tar.Read, tar.body_end. rewrite Hre, Hrf, Hc.
  destruct n as [|m]; [lia|]. cbn [firstn].
  destruct (skipn (S m) (c :: cs)) eqn:Hs.
  - destruct (tar.eager r); cbn; rewrite ?decide_True by reflexivity;
      reflexivity.
  - reflexivity.
Qed.

(** With the current body read to its end and another record of the
    directory next, [Read] advances to it and goes on as a [Read] from
    there. *)
Lemma Read_own_advance dr (h : heap) r x ps :
  standing l dr h r -> tar.curr r = [] -> tar.pending r = x :: ps ->
  in_dir (base dr) x ->
  exists dr' r',
    dirReader_Read (Some l) dr n h
      = dirReader_Read (Some l) dr' n (<[l := r']> h)
    /\ standing l dr' (<[l := r']> h) r' /\ base dr' = base dr
    /\ tar.curr r' = tar.body x /\ tar.pending r' = ps
    /\ tar.stop_err r' = tar.stop_err r.
Proof.
  intros Hst Hc Hp [Hx Hxf].
  pose proof Hst as (Ht & He & Hl & Hs & hd & Hh & Hd).
  exists (set_hdr (fst (fst (tar.Next r))) dr), (snd (tar.Next r)).
  rewrite (Next_own r x ps Hs Hp). cbn [fst snd].
  split; [|split; [|repeat split]].
  - unfold dirReader_Read at 1. rewrite He.
    rewrite Read_loop_own_advance with (r := r) by assumption.
    rewrite (Next_own r x ps Hs Hp).
    unfold dirReader_Read. cbn [set_hdr err]. rewrite He.
    unfold ahead. cbn [set_hdr tr]. rewrite Ht.
    cbn [deref mbind option_bind].
    rewrite Hl, lookup_insert_eq, Hp. reflexivity.
  - repeat split; cbn; try assumption.
    + apply lookup_insert_eq.
    + eexists. split; [reflexivity|]. exact Hx.
Qed.

(** With the current body read to its end and a record outside the
    directory next, [Read] advances to it and returns end-of-stream. *)
Lemma Read_own_foreign dr (h : heap) r x ps :
  standing l dr h r -> tar.curr r = [] -> tar.pending r = x :: ps ->
  path.Dir (tar.name x) <> base dr ->
  exists dr' h',
    dirReader_Read (Some l) dr n h = Done (([], Some io_EOF), dr', h')
    /\ Exhausted dr'.
Proof.
  intros Hst Hc Hp Hx.
  pose proof Hst as (Ht & He & Hl & Hs & hd & Hh & Hd).
  do 2 eexists. split.
  - unfold dirReader_Read. rewrite He.
    rewrite Read_loop_own_advance with (r := r) by assumption.
    rewrite (Next_own r x ps Hs Hp).
    unfold ahead. rewrite Ht. cbn [deref mbind option_bind].
    rewrite Hl, Hp. cbn [length dirReader_Read_loop set_hdr hdr base tar.Name].
    rewrite decide_False by exact Hx. reflexivity.
  - split; [exact He|]. eexists. split; [reflexivity|]. exact Hx.
Qed.

(** With the current body read to its end and the tape at its end,
    [Read] returns what the tape ends with. *)
Lemma Read_own_end dr (h : heap) r :
  standing l dr h r -> tar.curr r = [] -> tar.pending r = [] ->
  exists dr' h',
    dirReader_Read (Some l) dr n h
      = Done (([], Some (tar.stop_err r)), dr', h')
    /\ hdr dr' = None.
Proof.
  intros Hst Hc Hp.
  pose proof Hst as (Ht & He & Hl & [Hre Hrf] & hd & Hh & Hd).
  do 2 eexists. split.
  - unfold dirReader_Read. rewrite He.
    rewrite Read_loop_own_advance with (r := r) by assumption.
    unfold tar.Next. rewrite Hre, Hrf, Hp. reflexivity.
  - reflexivity.
Qed.

Lemma standing_set_curr dr (h : heap) r c :
  standing l dr h r ->
  standing l dr (<[l := tar.set_curr c r]> h) (tar.set_curr c r).
Proof.
  intros (Ht & He & Hl & [Hre Hrf] & Hhd). repeat split; try assumption.
  apply lookup_insert_eq.
Qed.

(** Reading on brings out the rest of the current body, in at most as
    many calls as it has bytes. *)
Lemma read_out_own_body : forall k dr (h : heap) r acc fuel,
  standing l dr h r -> length (tar.curr r) = k ->
  exists fuel',
    (fuel <= fuel' + k)%nat /\
    read_out fuel (Some l) dr n h acc
      = read_out fuel' (Some l) dr n (<[l := tar.set_curr [] r]> h)
          (acc ++ tar.curr r).
Proof.
  induction k as [k IH] using lt_wf_ind. intros dr h r acc fuel Hst Hk.
  destruct (tar.curr r) as [|c cs] eqn:Hc.
  - exists fuel. split; [lia|].
    rewrite set_curr_nil_id by exact Hc. rewrite app_nil_r.
    rewrite insert_id; [reflexivity | apply Hst].
  - destruct fuel as [|fuel].
    + exists 0%nat. split; [lia | reflexivity].
    + cbn [read_out]. rewrite (Read_own_body dr h r c cs Hst Hc).
      set (r1 := tar.set_curr (skipn n (c :: cs)) r).
      assert (Hlt : (length (tar.curr r1) < k)%nat).
      { subst k r1. cbn [tar.set_curr tar.curr]. rewrite length_skipn.
        cbn [length]. lia. }
      destruct (IH _ Hlt dr (<[l := r1]> h) r1
                  (acc ++ firstn n (c :: cs)) fuel)
        as (fuel' & Hf & Heq); [now apply standing_set_curr | reflexivity |].
      exists fuel'. split; [lia|]. rewrite Heq.
      rewrite insert_insert_eq. subst r1. cbn [tar.set_curr tar.curr].
      rewrite <- app_assoc, firstn_skipn. reflexivity.
Qed.

(** From the end of a body, reading on brings out the bodies of the
    records of the directory that follow, and stops at the first record
    outside it or at the end of the tape. *)
Lemma read_out_own_rest rest : forall es dr (h : heap) r acc fuel,
  standing l dr h r -> tar.curr r = [] ->
  tar.pending r = es ++ rest ->
  Forall (in_dir (base dr)) es -> outside (base dr) rest ->
  (length (bodies es) + 1 <= fuel)%nat ->
  exists dr' h',
    read_out fuel (Some l) dr n h acc
      = Done ((acc ++ bodies es, Some (dir_end rest (tar.stop_err r))),
              dr', h').
Proof.
  induction es as [|x es IH]; intros dr h r acc fuel Hst Hc Hp Hes Hout Hfuel.
  - destruct fuel as [|fuel]; [lia|]. cbn [read_out]. cbn in Hp.
    unfold bodies. cbn [map concat]. rewrite app_nil_r.
    destruct rest as [|y rest'].
    + destruct (Read_own_end dr h r Hst Hc Hp) as (dr' & h' & -> & _).
      rewrite app_nil_r. eauto.
    + destruct (Read_own_foreign dr h r y rest' Hst Hc Hp Hout)
        as (dr' & h' & -> & _).
      rewrite app_nil_r. eauto.
  - inversion Hes as [|? ? Hx Hes']; subst.
    destruct (Read_own_advance dr h r x (es ++ rest) Hst Hc Hp Hx)
      as (dr1 & r1 & HR & Hst1 & Hb & Hc1 & Hp1 & Hs1).
    assert (Hro : read_out fuel (Some l) dr n h acc
                  = read_out fuel (Some l) dr1 n (<[l := r1]> h) acc).
    { destruct fuel; [reflexivity|]. cbn [read_out]. now rewrite HR. }
    rewrite Hro.
    destruct (read_out_own_body _ dr1 (<[l := r1]> h) r1 acc fuel
                Hst1 eq_refl) as (fuel' & Hf & ->).
    rewrite insert_insert_eq, Hc1.
    unfold bodies in *. cbn [map concat] in *. rewrite length_app in Hfuel.
    rewrite Hc1 in Hf.
    destruct (IH dr1 (<[l := tar.set_curr [] r1]> h) (tar.set_curr [] r1)
                (acc ++ tar.body x) fuel')
      as (dr' & h' & ->).
    + pose proof (standing_set_curr dr1 (<[l := r1]> h) r1 [] Hst1) as H.
      now rewrite insert_insert_eq in H.
    + reflexivity.
    + exact Hp1.
    + now rewrite Hb.
    + now rewrite Hb.
    + lia.
    + cbn [tar.set_curr tar.stop_err]. rewrite Hs1, <- app_assoc. eauto.
Qed.

End OwnScanner.

(** X21: when [tr] stands for the scanner the reader was built on: on a
    tape that begins with the intact records [es] directly under the directory
    and goes on with [rest], either empty or begun by a record that is
    not, the reader opened on the directory yields, read to exhaustion
    with a buffer of at least one byte, exactly the bodies of [es] one
    after the other, and then end-of-stream (or, at the end of the tape,
    what the tape ends with). *)
Theorem DirReader_concat_own_scanner
    eager_eof l n dh (es rest : list tar.entry) stop_at (h : heap) :
  (0 < n)%nat ->
  Forall (in_dir (path.Clean (tar.Name dh))) es ->
  outside (path.Clean (tar.Name dh)) rest ->
  h !! l = Some (tar.NewReader eager_eof
                   {| tar.entries := es ++ rest; tar.stop := stop_at |}) ->
  exists dr h1 dr' h',
    DirReader (Some l) (Some dh) h = Done (dr, h1) /\
    read_out (S (length (bodies es))) (Some l) dr n h1 []
      = Done ((bodies es, Some (dir_end rest stop_at)), dr', h').
Proof.
  intros Hn Hes Hout Hl. unfold DirReader. cbn [deref mbind option_bind].
  rewrite Hl. unfold tar.Next, tar.NewReader.
  cbn [tar.err tar.curr_fault tar.pending tar.entries tar.stop tar.stop_err
       tar.eager tar.advances].
  destruct es as [|x es].
  - destruct rest as [|y rest]; cbn [app store].
    + do 4 eexists. split; [reflexivity|]. reflexivity.
    + do 4 eexists. split; [reflexivity|]. cbn [read_out bodies map concat length].
      rewrite Read_Exhausted; [reflexivity|].
      split; [reflexivity|]. eexists. split; [reflexivity|]. exact Hout.
  - inversion Hes as [|? ? [Hx Hxf] Hes']; subst. cbn [app store].
    match goal with
    | |- context [Done (?d, <[l := ?r]> h)] => set (dr := d); set (r1 := r)
    end.
    assert (Hst : standing l dr (<[l := r1]> h) r1).
    { repeat split; try reflexivity.
      - apply lookup_insert_eq.
      - exact Hxf.
      - eexists. split; [reflexivity|]. exact Hx. }
    destruct (read_out_own_body l n Hn _ dr (<[l := r1]> h) r1 []
                (S (length (bodies (x :: es)))) Hst eq_refl)
      as (fuel' & Hf & Heq).
    destruct (read_out_own_rest l n Hn rest es dr
                (<[l := tar.set_curr [] r1]> h) (tar.set_curr [] r1)
                ([] ++ tar.curr r1) fuel')
      as (dr' & h' & Hr).
    + pose proof (standing_set_curr l dr (<[l := r1]> h) r1 [] Hst) as H.
      now rewrite insert_insert_eq in H.
    + reflexivity.
    + reflexivity.
    + exact Hes'.
    + exact Hout.
    + unfold bodies in *. cbn [map concat] in Hf. rewrite length_app in Hf.
      subst r1. cbn [tar.curr] in Hf. lia.
    + exists dr, (<[l := r1]> h), dr', h'. split; [reflexivity|].
      rewrite Heq, insert_insert_eq, Hr. reflexivity.
Qed.

(** * Further properties of the package *)

(** ** exists.go *)

(** [os.Stat] returns either the information or an error. *)
Lemma os_Stat_either t p :
  (exists fi, os_Stat t p = (Some fi, None)) \/
  (exists e, os_Stat t p = (None, Some e)).
Proof.
  unfold os_Stat. destruct (t !! p) as [[fi|e]|]; eauto.
Qed.

(** X1: [IsExists] answers [ok = false] exactly when [os.Stat] reports
    that the path does not exist, and swallows that error; every other
    error of [os.Stat] is passed on, with [ok = true]. *)
Theorem IsExists_ok_and_err t p :
  fst (IsExists t p) = negb (os_IsNotExist (snd (os_Stat t p))) /\
  snd (IsExists t p)
    = (if fst (IsExists t p) then snd (os_Stat t p) else None).
Proof.
  unfold IsExists, isExists.
  destruct (os_Stat_either t p) as [[fi H]|[e H]]; rewrite H.
  - cbn. split; reflexivity.
  - destruct e; cbn; split; reflexivity.
Qed.

(** X2: on a path that exists, [IsFileExists] and [IsDirectoryExists]
    both return [(true, nil)], whether it is a file or a directory; on a
    path that [os.Stat] reports missing both return [(false, nil)]. The
    kind of the file is never looked at. *)
Theorem IsFileExists_ignores_kind t p :
  (exists fi, t !! p = Some (inl fi))
  \/ os_IsNotExist (snd (os_Stat t p)) = true ->
  IsFileExists t p = Done (IsExists t p) /\
  IsDirectoryExists t p = Done (IsExists t p) /\
  snd (IsExists t p) = None.
Proof.
  unfold IsFileExists, IsDirectoryExists, IsExists, isExists, os_Stat.
  intros [[fi ->]|H]; [cbn; repeat split|].
  destruct (t !! p) as [[fi|e]|]; cbn in *; try discriminate.
  - rewrite H. cbn. repeat split.
  - cbn. repeat split.
Qed.

Lemma IsFileExists_ignores_kind_witness :
  let t : stat_table := {[ "/etc" := inl {| IsDir := true |} ]} in
  ((exists fi, t !! "/etc" = Some (inl fi))
   \/ os_IsNotExist (snd (os_Stat t "/etc")) = true) /\
  IsFileExists t "/etc" = Done (true, None) /\
  IsDirectoryExists t "/etc" = Done (true, None) /\
  snd (IsExists t "/etc") = None.
Proof.
  intros t.
  assert (H : (exists fi, t !! "/etc" = Some (inl fi))
              \/ os_IsNotExist (snd (os_Stat t "/etc")) = true).
  { left. eexists. reflexivity. }
  split; [exact H|]. exact (IsFileExists_ignores_kind t "/etc" H).
Defined.

(** X3: when [os.Stat] fails with an error other than not-exist (say,
    permission denied), [IsExists] returns [(true, err)], and
    [IsFileExists] and [IsDirectoryExists] call [IsDir] on the nil
    [FileInfo] and panic. *)
Theorem IsFileExists_panics_on_stat_error t p e :
  t !! p = Some (inr e) -> e <> os_ErrNotExist ->
  IsExists t p = (true, Some e) /\
  IsFileExists t p = Panic nil_deref /\
  IsDirectoryExists t p = Panic nil_deref.
Proof.
  intros Ht He.
  unfold IsFileExists, IsDirectoryExists, IsExists, isExists, os_Stat.
  rewrite Ht. destruct e; try congruence; cbn; repeat split.
Qed.

Lemma IsFileExists_panics_on_stat_error_witness :
  let t : stat_table := {[ "/root/x" := inr (fmt_Errorf "permission denied") ]} in
  t !! "/root/x" = Some (inr (fmt_Errorf "permission denied")) /\
  fmt_Errorf "permission denied" <> os_ErrNotExist /\
  IsExists t "/root/x" = (true, Some (fmt_Errorf "permission denied")) /\
  IsFileExists t "/root/x" = Panic nil_deref /\
  IsDirectoryExists t "/root/x" = Panic nil_deref.
Proof.
  intros t.
  assert (Hne : fmt_Errorf "permission denied" <> os_ErrNotExist)
    by discriminate.
  split; [reflexivity|]. split; [exact Hne|].
  exact (IsFileExists_panics_on_stat_error t "/root/x" _ eq_refl Hne).
Defined.

(** X4: [IsFileExists] and [IsDirectoryExists] never return an error:
    whenever they return, the error is nil. The branches that build
    "exists but is a directory not a file" and "exists but is not a
    directory" are never taken. *)
Theorem IsFileExists_returns_no_error t p ok e :
  IsFileExists t p = Done (ok, e) \/ IsDirectoryExists t p = Done (ok, e) ->
  e = None.
Proof.
  unfold IsFileExists, IsDirectoryExists, isExists.
  destruct (os_Stat_either t p) as [[fi H]|[e0 H]]; rewrite H.
  - cbn. intros [E|E]; congruence.
  - destruct e0; cbn; intros [E|E]; congruence.
Qed.

Lemma IsFileExists_returns_no_error_witness :
  let t : stat_table := {[ "/etc" := inl {| IsDir := true |} ]} in
  (IsFileExists t "/etc" = Done (true, None)
   \/ IsDirectoryExists t "/etc" = Done (true, None)) /\
  (None : option error) = None.
Proof.
  intros t.
  assert (H : IsFileExists t "/etc" = Done (true, None)
              \/ IsDirectoryExists t "/etc" = Done (true, None))
    by (left; reflexivity).
  split; [exact H|].
  exact (IsFileExists_returns_no_error t "/etc" true None H).
Defined.

(** ** ReadFileFromTar: errors *)

(** The scan passes over records of another name without looking at
    their bodies. *)
Lemma ReadFileFromTar_loop_skip file rest : forall pre tr,
  sound tr -> tar.pending tr = pre ++ rest ->
  Forall (passed_over file) pre ->
  exists tr1,
    sound tr1 /\ tar.pending tr1 = rest /\
    tar.stop_err tr1 = tar.stop_err tr /\
    tar.advances tr1 = (length pre + tar.advances tr)%nat /\
    forall fuel,
      ReadFileFromTar_loop (length pre + fuel) tr file
        = ReadFileFromTar_loop fuel tr1 file.
Proof.
  induction pre as [|x pre IH]; intros tr Hs Hp Hpre.
  - exists tr. repeat split; try apply Hs; auto.
  - inversion Hpre as [|? ? [Hx Hxf] Hpre']; subst.
    destruct Hs as [He Hf].
    edestruct (IH {| tar.pending := pre ++ rest;
                     tar.stop_err := tar.stop_err tr;
                     tar.curr := tar.body x; tar.curr_fault := tar.fault x;
                     tar.err := None; tar.eager := tar.eager tr;
                     tar.advances := S (tar.advances tr) |})
      as (tr1 & Hs1 & Hp1 & Hst1 & Ha1 & Hl1); auto.
    + split; [reflexivity | exact Hxf].
    + exists tr1. repeat split; try apply Hs1; auto.
      * rewrite Ha1. cbn. lia.
      * intros fuel. cbn [length Nat.add ReadFileFromTar_loop].
        unfold tar.Next. rewrite He, Hf, Hp. cbn -[ReadAll].
        rewrite decide_False by exact Hx. apply Hl1.
Qed.

(** [ReadAll] never reports [io.EOF]: the end of the stream is its
    regular end. *)
Lemma ReadAll_loop_no_EOF fuel : forall acc tr b e tr',
  ReadAll_loop fuel acc tr = Done ((b, e), tr') -> e <> Some io_EOF.
Proof.
  induction fuel as [|fuel IH]; intros acc tr b e tr'; [discriminate|].
  cbn [ReadAll_loop]. destruct (tar.Read MinRead tr) as [[data e0] tr1].
  destruct e0 as [e0|]; [|apply IH].
  destruct e0; intros [= _ <- _]; discriminate.
Qed.

(** On a body cut short, [ReadAll] returns the error of the cut. *)
Lemma ReadAll_loop_fault f fuel : forall acc tr,
  tar.err tr = None -> tar.curr_fault tr = Some f -> f <> io_EOF ->
  (length (tar.curr tr) + 2 <= fuel)%nat ->
  exists tr',
    ReadAll_loop fuel acc tr = Done ((acc ++ tar.curr tr, Some f), tr').
Proof.
  induction fuel as [|fuel IH]; intros acc tr He Hf Hne Hfuel; [lia|].
  cbn [ReadAll_loop]. unfold tar.Read, tar.body_end. rewrite He, Hf.
  destruct (skipn MinRead (tar.curr tr)) as [|x rest] eqn:Hs.
  - rewrite (firstn_skipn_nil _ _ Hs).
    destruct (tar.curr tr) as [|c cs] eqn:Hc.
    + destruct f; try congruence; eauto.
    + destruct (tar.eager tr).
      * destruct f; try congruence; eauto.
      * edestruct (IH (acc ++ c :: cs) (tar.set_curr [] tr))
          as (tr' & ->); auto.
        -- cbn in *. lia.
        -- cbn. rewrite app_nil_r. eauto.
  - edestruct (IH (acc ++ firstn MinRead (tar.curr tr))
                  (tar.set_curr (x :: rest) tr)) as (tr' & ->); auto.
    + pose proof (skipn_shorter MinRead _ _ _ ltac:(unfold MinRead; lia) Hs).
      cbn [tar.set_curr tar.curr]. lia.
    + cbn [tar.set_curr tar.curr].
      rewrite <- app_assoc, <- Hs, firstn_skipn. eauto.
Qed.

(** X5: when the tape is damaged after [N] intact records none of which
    is named [file], [ReadFileFromTar] returns the scanner's error as it
    is, with no bytes, and not the not-found error; the scan has decoded
    the [N] headers before it. *)
Theorem ReadFileFromTar_scan_error eager_eof (es : list tar.entry) e file :
  Forall (passed_over file) es -> e <> io_EOF ->
  exists tr',
    ReadFileFromTar eager_eof {| tar.entries := es; tar.stop := e |} file
      = Done (([], Some e), tr') /\
    tar.advances tr' = length es.
Proof.
  intros Hes He. unfold ReadFileFromTar.
  set (tr := tar.NewReader eager_eof _).
  destruct (ReadFileFromTar_loop_skip file [] es tr) as
    (tr1 & [He1 Hf1] & Hp1 & Hst1 & Ha1 & Hl1); auto.
  - split; reflexivity.
  - cbn. now rewrite app_nil_r.
  - replace (S (S (length (tar.pending tr)))) with (length es + 2)%nat
      by (cbn; lia).
    rewrite Hl1. cbn [ReadFileFromTar_loop]. unfold tar.Next.
    rewrite He1, Hf1, Hp1, Hst1. cbn [tr tar.NewReader tar.stop_err tar.stop].
    eexists. split.
    + destruct e; try congruence; reflexivity.
    + destruct e; try congruence; cbn; rewrite Ha1; cbn; lia.
Qed.

Lemma ReadFileFromTar_scan_error_witness :
  Forall (passed_over "dir/b") (tar.entries tape_damaged) /\
  tar_ErrHeader <> io_EOF /\
  exists tr',
    ReadFileFromTar true tape_damaged "dir/b"
      = Done (([], Some tar_ErrHeader), tr') /\
    tar.advances tr' = 1.
Proof.
  assert (H : Forall (passed_over "dir/b") (tar.entries tape_damaged)).
  { repeat constructor; discriminate. }
  assert (Hne : tar_ErrHeader <> io_EOF) by discriminate.
  split; [exact H|]. split; [exact Hne|].
  exact (ReadFileFromTar_scan_error true (tar.entries tape_damaged)
           tar_ErrHeader "dir/b" H Hne).
Defined.

(** X6: when the body of the first record named [file] is cut short,
    [ReadFileFromTar] returns the error of the cut and no bytes: the part
    of the body that could be read is not returned. *)
Theorem ReadFileFromTar_truncated_body
    eager_eof (pre : list tar.entry) x post stop_at file f :
  Forall (passed_over file) pre ->
  tar.name x = file -> tar.fault x = Some f -> f <> io_EOF ->
  exists tr',
    ReadFileFromTar eager_eof
      {| tar.entries := pre ++ x :: post; tar.stop := stop_at |} file
      = Done (([], Some f), tr').
Proof.
  intros Hpre Hn Hf Hne. unfold ReadFileFromTar.
  set (tr := tar.NewReader eager_eof _).
  destruct (ReadFileFromTar_loop_skip file (x :: post) pre tr) as
    (tr1 & [He1 Hf1] & Hp1 & Hst1 & Ha1 & Hl1); auto.
  - split; reflexivity.
  - replace (S (S (length (tar.pending tr))))
      with (length pre + S (S (S (length post))))%nat
      by (cbn; rewrite length_app; cbn; lia).
    rewrite Hl1. cbn [ReadFileFromTar_loop]. unfold tar.Next.
    rewrite He1, Hf1, Hp1. cbn -[ReadAll].
    rewrite decide_True by exact Hn. unfold ReadAll.
    edestruct (ReadAll_loop_fault f) as (tr' & ->); eauto; cbn; lia.
Qed.

Lemma ReadFileFromTar_truncated_body_witness :
  let x := {| tar.name := "dir/b"; tar.body := list_byte_of_string "BBB";
              tar.fault := Some io_ErrUnexpectedEOF |} in
  Forall (passed_over "dir/b") [file_entry "dir/a" "AAAA"] /\
  tar.name x = "dir/b" /\ tar.fault x = Some io_ErrUnexpectedEOF /\
  io_ErrUnexpectedEOF <> io_EOF /\
  exists tr',
    ReadFileFromTar false
      {| tar.entries := [file_entry "dir/a" "AAAA"] ++ x :: [];
         tar.stop := io_EOF |} "dir/b"
      = Done (([], Some io_ErrUnexpectedEOF), tr').
Proof.
  intros x.
  assert (H : Forall (passed_over "dir/b") [file_entry "dir/a" "AAAA"]).
  { repeat constructor; discriminate. }
  assert (Hne : io_ErrUnexpectedEOF <> io_EOF) by discriminate.
  split; [exact H|]. do 2 (split; [reflexivity|]). split; [exact Hne|].
  exact (ReadFileFromTar_truncated_body false [file_entry "dir/a" "AAAA"] x
           [] io_EOF "dir/b" io_ErrUnexpectedEOF H eq_refl eq_refl Hne).
Defined.

Lemma ReadFileFromTar_loop_result file fuel : forall tr b e tr',
  ReadFileFromTar_loop fuel tr file = Done ((b, e), tr') ->
  (e <> None -> b = []) /\ e <> Some io_EOF.
Proof.
  induction fuel as [|fuel IH]; intros tr b e tr'; [discriminate|].
  cbn [ReadFileFromTar_loop].
  destruct (tar.Next tr) as [[hd e0] tr1].
  destruct e0 as [e0|].
  - destruct e0; intros [= <- <- _]; split; auto; discriminate.
  - destruct hd as [hd|]; [|discriminate].
    destruct (decide _); [|apply IH].
    unfold ReadAll.
    destruct (ReadAll_loop _ _ _) as [[[b2 [e2|]] tr2]| |] eqn:HR;
      try discriminate.
    + apply ReadAll_loop_no_EOF in HR.
      intros [= <- <- _]. split; auto.
    + intros [= <- <- _]. split; [congruence | discriminate].
Qed.

(** X7: on every tape, damaged or not, [ReadFileFromTar] returns; when
    it returns an error no bytes come with it, and the error is never
    [io.EOF]: the end of the archive is reported as the not-found error
    and the end of a body is the regular end of [ReadAll]. *)
Theorem ReadFileFromTar_result_shape eager_eof r file :
  exists b e tr',
    ReadFileFromTar eager_eof r file = Done ((b, e), tr') /\
    (e <> None -> b = []) /\ e <> Some io_EOF.
Proof.
  destruct (ReadFileFromTar_total eager_eof r file) as [[[b e] tr'] H].
  exists b, e, tr'. split; [exact H|].
  eapply ReadFileFromTar_loop_result. exact H.
Qed.

(** ** NewDecompressor and Close: dispatch and descriptors *)

Lemma list_ascii_of_string_app (s1 s2 : string) :
  list_ascii_of_string (s1 ++ s2)
    = list_ascii_of_string s1 ++ list_ascii_of_string s2.
Proof.
  induction s1 as [|c s1 IH]; [reflexivity|].
  change (String.append (String c s1) s2)
    with (String c (String.append s1 s2)).
  cbn [list_ascii_of_string app]. now rewrite IH.
Qed.

Lemma ext_loop_plain le : forall rest acc,
  forallb (fun c => negb (Ascii.eqb c path.slash)
                    && negb (Ascii.eqb c path.dot)) le = true ->
  path.ext_loop (rev le ++ rest) acc = path.ext_loop rest (le ++ acc).
Proof.
  induction le as [|c le IH]; intros rest acc H; [reflexivity|].
  cbn in H. apply andb_prop in H as [Hc Hle].
  apply andb_prop in Hc as [Hs Hd].
  cbn [rev]. rewrite <- app_assoc. rewrite IH by exact Hle.
  cbn [app path.ext_loop].
  apply negb_true_iff in Hs, Hd. now rewrite Hs, Hd.
Qed.

(** [path.Ext] of a name that ends in a dot and then bytes that are
    neither dots nor slashes is that ending, whatever comes before. *)
Lemma Ext_suffix stem e :
  forallb (fun c => negb (Ascii.eqb c path.slash)
                    && negb (Ascii.eqb c path.dot))
          (list_ascii_of_string e) = true ->
  path.Ext (stem +:+ String path.dot e) = String path.dot e.
Proof.
  intros H. unfold path.Ext.
  rewrite list_ascii_of_string_app. cbn [list_ascii_of_string].
  rewrite rev_app_distr. cbn [rev]. rewrite <- app_assoc.
  rewrite ext_loop_plain by exact H. cbn [app path.ext_loop].
  cbn. rewrite app_nil_r. now rewrite string_of_list_ascii_of_string.
Qed.

(** The machine after [os.Open] has opened a file holding [content]. *)
Lemma Open_present name content (s : os.state) :
  os.disk s !! name = Some content ->
  os.Open name s =
    ((Some (os.next_fd s), None),
     {| os.disk := os.disk s;
        os.open_files := <[os.next_fd s := content]> (os.open_files s);
        os.next_fd := S (os.next_fd s) |}).
Proof. intros H. unfold os.Open. now rewrite H. Qed.

(** X8: on a path that is not on the disk, [NewDecompressor] returns
    the error of [os.Open] and a nil Decompressor, whatever the
    extension, and opens nothing. *)
Theorem NewDecompressor_missing_file lzma_ret filepath (s : os.state) :
  os.disk s !! filepath = None ->
  NewDecompressor lzma_ret filepath s = ((None, Some os_ErrNotExist), s).
Proof.
  intros H. unfold NewDecompressor, os.Open. now rewrite H.
Qed.

Lemma NewDecompressor_missing_file_witness :
  os.disk disk_not_gzip !! "other.tar" = None /\
  NewDecompressor 0 "other.tar" disk_not_gzip
    = ((None, Some os_ErrNotExist), disk_not_gzip).
Proof.
  split; [reflexivity|].
  exact (NewDecompressor_missing_file 0 "other.tar" disk_not_gzip eq_refl).
Defined.

(** X9: on a file whose extension is none of [.xz], [.gz], [.bz2],
    [.tar], [NewDecompressor] fails with "unknown file format"; the
    extension is looked at only after the file has been opened, and the
    descriptor is open when the function returns. *)
Theorem NewDecompressor_unknown_format
    lzma_ret filepath content (s : os.state) :
  os.disk s !! filepath = Some content ->
  ~ In (path.Ext filepath) [".xz"; ".gz"; ".bz2"; ".tar"] ->
  fst (NewDecompressor lzma_ret filepath s)
    = (None, Some (fmt_Errorf "unknown file format")) /\
  os.is_open (os.next_fd s) (snd (NewDecompressor lzma_ret filepath s))
    = true.
Proof.
  intros Hd Hext. unfold NewDecompressor.
  rewrite (Open_present _ _ _ Hd).
  repeat (rewrite decide_False
            by (intros E; apply Hext; rewrite E; cbn; tauto)).
  split; [reflexivity|].
  unfold os.is_open. cbn. apply bool_decide_eq_true.
  rewrite lookup_insert_eq. eauto.
Qed.

Lemma NewDecompressor_unknown_format_witness :
  let s := {| os.disk := {[ "data.tgz" := not_gzip ]}; os.open_files := ∅;
              os.next_fd := 3 |} in
  os.disk s !! "data.tgz" = Some not_gzip /\
  ~ In (path.Ext "data.tgz") [".xz"; ".gz"; ".bz2"; ".tar"] /\
  fst (NewDecompressor 0 "data.tgz" s)
    = (None, Some (fmt_Errorf "unknown file format")) /\
  os.is_open 3 (snd (NewDecompressor 0 "data.tgz" s)) = true.
Proof.
  intros s.
  assert (H : ~ In (path.Ext "data.tgz") [".xz"; ".gz"; ".bz2"; ".tar"]).
  { vm_compute. intros [E|[E|[E|[E|[]]]]]; discriminate. }
  split; [reflexivity|]. split; [exact H|].
  exact (NewDecompressor_unknown_format 0 "data.tgz" not_gzip s eq_refl H).
Defined.

(** X10: a file whose name ends in [.tar] or [.bz2] is accepted
    whatever it holds: [NewDecompressor] succeeds without reading a byte
    of it, with the file itself or the bzip2 transform as reader and no
    closer. *)
Theorem NewDecompressor_tar_bz2_any_content
    lzma_ret stem suffix rd content (s : os.state) :
  (suffix, rd) = (".tar", file_Reader) \/ (suffix, rd) = (".bz2", bz2_Reader) ->
  os.disk s !! (stem +:+ suffix) = Some content ->
  fst (NewDecompressor lzma_ret (stem +:+ suffix) s)
    = (Some {| file := Some (os.next_fd s); reader := Some rd;
               closer := None |}, None).
Proof.
  intros Hs Hd. unfold NewDecompressor. rewrite (Open_present _ _ _ Hd).
  destruct Hs as [[= -> ->]|[= -> ->]].
  - pose proof (Ext_suffix stem "tar" eq_refl) as E. unfold path.dot in E.
    rewrite E. reflexivity.
  - pose proof (Ext_suffix stem "bz2" eq_refl) as E. unfold path.dot in E.
    rewrite E. reflexivity.
Qed.

Lemma NewDecompressor_tar_bz2_any_content_witness :
  let s := {| os.disk := {[ "backup.tar.bz2" := not_gzip ]};
              os.open_files := ∅; os.next_fd := 3 |} in
  ((".bz2", bz2_Reader) = (".tar", file_Reader)
   \/ (".bz2", bz2_Reader) = (".bz2", bz2_Reader)) /\
  os.disk s !! ("backup.tar" +:+ ".bz2") = Some not_gzip /\
  fst (NewDecompressor 0 ("backup.tar" +:+ ".bz2") s)
    = (Some {| file := Some 3; reader := Some bz2_Reader; closer := None |},
       None).
Proof.
  intros s.
  assert (H : (".bz2", bz2_Reader) = (".tar", file_Reader)
              \/ (".bz2", bz2_Reader) = (".bz2", bz2_Reader))
    by (right; reflexivity).
  split; [exact H|]. split; [reflexivity|].
  exact (NewDecompressor_tar_bz2_any_content 0 "backup.tar" ".bz2" bz2_Reader
           not_gzip s H eq_refl).
Defined.



(** What a successful [NewDecompressor] has done: opened the file as the
    next descriptor, and built one of the four Decompressors on it. *)
Lemma NewDecompressor_success lzma_ret filepath (s : os.state) d s1 :
  NewDecompressor lzma_ret filepath s = ((Some d, None), s1) ->
  exists content rd,
    os.disk s !! filepath = Some content /\
    s1 = {| os.disk := os.disk s;
            os.open_files := <[os.next_fd s := content]> (os.open_files s);
            os.next_fd := S (os.next_fd s) |} /\
    file d = Some (os.next_fd s) /\ reader d = Some rd /\
    (closer d = None \/ closer d = Some xz_Closer \/
     (closer d = Some (gz_Closer None) /\ path.Ext filepath = ".gz")).
Proof.
  unfold NewDecompressor, os.Open.
  destruct (os.disk s !! filepath) as [content|]; [|discriminate].
  intros H. exists content.
  destruct (decide (path.Ext filepath = ".xz")).
  { destruct (lzma_NewReader lzma_ret); [discriminate|].
    injection H as <- <-. eexists. repeat split; auto. }
  destruct (decide (path.Ext filepath = ".gz")).
  { destruct (gzip_NewReader _); [discriminate|].
    injection H as <- <-. eexists. repeat split; auto. }
  destruct (decide (path.Ext filepath = ".bz2")).
  { injection H as <- <-. eexists. repeat split; auto. }
  destruct (decide (path.Ext filepath = ".tar")); [|discriminate].
  injection H as <- <-. eexists. repeat split; auto.
Qed.

(** Closing an open file whose inner closer, if any, closes without
    error. *)
Lemma Close_clean d fd content (s : os.state) :
  file d = Some fd -> os.open_files s !! fd = Some content ->
  (forall c, closer d = Some c -> Closer_Close c = None) ->
  Decompressor_Close d s =
    (None, {| os.disk := os.disk s;
              os.open_files := delete fd (os.open_files s);
              os.next_fd := os.next_fd s |}).
Proof.
  intros Hf Ho Hc. rewrite Close_reaches_file by exact Hc.
  unfold os.Close. now rewrite Hf, Ho.
Qed.

(** X12: [Close] on the Decompressor that [NewDecompressor] has just
    returned succeeds and undoes the opening: the table of open
    descriptors is what it was before [NewDecompressor], for each of the
    four formats. (The descriptor handed out was free before.) *)
Theorem NewDecompressor_Close_round_trip
    lzma_ret filepath (s : os.state) d s1 :
  os.open_files s !! os.next_fd s = None ->
  NewDecompressor lzma_ret filepath s = ((Some d, None), s1) ->
  exists s2,
    Decompressor_Close d s1 = (None, s2) /\
    os.open_files s2 = os.open_files s /\ os.disk s2 = os.disk s.
Proof.
  intros Hfree HN.
  destruct (NewDecompressor_success _ _ _ _ _ HN)
    as (content & rd & Hd & -> & Hf & Hr & Hc).
  eexists. split.
  - apply Close_clean with (fd := os.next_fd s) (content := content).
    + exact Hf.
    + cbn. apply lookup_insert_eq.
    + intros c Hcl. destruct Hc as [Hc|[Hc|[Hc _]]]; rewrite Hc in Hcl;
        [discriminate | injection Hcl as <- | injection Hcl as <-];
        reflexivity.
  - cbn. split; [|reflexivity]. now apply delete_insert_id.
Qed.

Lemma NewDecompressor_Close_round_trip_witness :
  let s := {| os.disk := {[ "backup.tar" := not_gzip ]};
              os.open_files := ∅; os.next_fd := 3 |} in
  let d := {| file := Some 3; reader := Some file_Reader; closer := None |} in
  let s1 := snd (NewDecompressor 0 "backup.tar" s) in
  os.open_files s !! os.next_fd s = None /\
  NewDecompressor 0 "backup.tar" s = ((Some d, None), s1) /\
  exists s2,
    Decompressor_Close d s1 = (None, s2) /\
    os.open_files s2 = os.open_files s /\ os.disk s2 = os.disk s.
Proof.
  intros s d s1. split; [reflexivity|]. split; [reflexivity|].
  exact (NewDecompressor_Close_round_trip 0 "backup.tar" s d s1
           eq_refl eq_refl).
Defined.

(** X13: [Close] is not idempotent: after a [Close] that closed the
    file, a second [Close] on the same Decompressor fails with the error
    of closing a closed file, and changes nothing. *)
Theorem Close_twice d fd content (s : os.state) :
  file d = Some fd -> os.open_files s !! fd = Some content ->
  (forall c, closer d = Some c -> Closer_Close c = None) ->
  exists s1,
    Decompressor_Close d s = (None, s1) /\
    os.is_open fd s1 = false /\
    Decompressor_Close d s1 = (Some os_ErrClosed, s1).
Proof.
  intros Hf Ho Hc. eexists. split; [|split].
  - apply Close_clean with (fd := fd) (content := content); assumption.
  - unfold os.is_open. cbn. apply bool_decide_eq_false.
    rewrite lookup_delete_eq. intros [x Hx]. discriminate.
  - rewrite Close_reaches_file by exact Hc.
    unfold os.Close. rewrite Hf. cbn. now rewrite lookup_delete_eq.
Qed.

Lemma Close_twice_witness :
  let d := {| file := Some 3; reader := Some bz2_Reader; closer := None |} in
  file d = Some 3 /\ os.open_files machine_fd3 !! 3 = Some [] /\
  (forall c, closer d = Some c -> Closer_Close c = None) /\
  exists s1,
    Decompressor_Close d machine_fd3 = (None, s1) /\
    os.is_open 3 s1 = false /\
    Decompressor_Close d s1 = (Some os_ErrClosed, s1).
Proof.
  intros d.
  assert (H : forall c, closer d = Some c -> Closer_Close c = None)
    by (intros c E; discriminate E).
  split; [reflexivity|]. split; [reflexivity|]. split; [exact H|].
  exact (Close_twice d 3 [] machine_fd3 eq_refl eq_refl H).
Defined.

(** ** ReadFileFromArchive *)

Section Archive.

Variable decode : io_Reader -> list byte -> tar.tape.
Variable inflated :
  list byte -> outcome (read_result * tar.Reader) -> option error.
Variable lzma_ret : nat.
Variable eager_eof : bool.

(** X14: when [NewDecompressor] fails (missing file, unknown format,
    rejected header), [ReadFileFromArchive] returns its error with no
    bytes; nothing is scanned, and nothing is closed: the machine is as
    [NewDecompressor] left it. *)
Theorem ReadFileFromArchive_construction_error
    archive file_name (s : os.state) e :
  snd (fst (NewDecompressor lzma_ret archive s)) = Some e ->
  ReadFileFromArchive decode inflated lzma_ret eager_eof archive file_name s
    = (Done ([], Some e), snd (NewDecompressor lzma_ret archive s)).
Proof.
  unfold ReadFileFromArchive.
  destruct (NewDecompressor lzma_ret archive s) as [[d e0] s1].
  cbn. now intros ->.
Qed.

(** X15: on an archive that is not gzip ([.tar], [.bz2], [.xz]) and
    that [NewDecompressor] accepts, [ReadFileFromArchive] returns what
    [ReadFileFromTar] returns on the decoded stream, bytes or error, and
    has closed the file when it returns, whatever the scan gave: the
    table of open descriptors is what it was before the call. *)
Theorem ReadFileFromArchive_closes_file
    archive file_name (s : os.state) d s1 :
  os.open_files s !! os.next_fd s = None ->
  NewDecompressor lzma_ret archive s = ((Some d, None), s1) ->
  path.Ext archive <> ".gz" ->
  exists content rd r tr' s2,
    os.disk s !! archive = Some content /\ reader d = Some rd /\
    ReadFileFromTar eager_eof (decode rd content) file_name = Done (r, tr') /\
    ReadFileFromArchive decode inflated lzma_ret eager_eof archive file_name s
      = (Done r, s2) /\
    os.open_files s2 = os.open_files s /\ os.disk s2 = os.disk s.
Proof.
  intros Hfree HN Hext.
  destruct (NewDecompressor_success _ _ _ _ _ HN)
    as (content & rd & Hd & Hs1 & Hf & Hr & Hc).
  destruct (ReadFileFromTar_total eager_eof (decode rd content) file_name)
    as [[r tr'] HR].
  assert (Hcl : closer d = None \/ closer d = Some xz_Closer)
    by (destruct Hc as [Hc|[Hc|[_ Hc]]]; [auto | auto | contradiction]).
  assert (Hcont : default [] (file d ≫= (os.open_files s1 !!.)) = content).
  { rewrite Hf, Hs1. cbn. now rewrite lookup_insert_eq. }
  exists content, rd, r, tr'. eexists. split; [exact Hd|].
  split; [exact Hr|]. split; [exact HR|]. split.
  - unfold ReadFileFromArchive. rewrite HN, Hr, Hcont, HR.
    rewrite Close_clean with (fd := os.next_fd s) (content := content).
    + reflexivity.
    + exact Hf.
    + rewrite Hs1. cbn. apply lookup_insert_eq.
    + cbn [closer]. intros c Hcc.
      destruct Hcl as [E|E]; rewrite E in Hcc;
        [discriminate | injection Hcc as <-; reflexivity].
  - rewrite Hs1. cbn. split; [|reflexivity]. now apply delete_insert_id.
Qed.


End Archive.

Lemma ReadFileFromArchive_construction_error_witness :
  snd (fst (NewDecompressor 0 "data.tar.gz" disk_not_gzip))
    = Some gzip_ErrHeader /\
  ReadFileFromArchive (fun _ _ => tape_abc) (fun _ _ => None) 0 true
    "data.tar.gz" "dir/a" disk_not_gzip
    = (Done ([], Some gzip_ErrHeader),
       snd (NewDecompressor 0 "data.tar.gz" disk_not_gzip)).
Proof.
  split; [reflexivity|].
  exact (ReadFileFromArchive_construction_error (fun _ _ => tape_abc)
           (fun _ _ => None) 0 true "data.tar.gz" "dir/a" disk_not_gzip
           gzip_ErrHeader eq_refl).
Defined.

Lemma ReadFileFromArchive_closes_file_witness :
  let s := {| os.disk := {[ "backup.tar" := not_gzip ]};
              os.open_files := ∅; os.next_fd := 3 |} in
  let d := {| file := Some 3; reader := Some file_Reader; closer := None |} in
  let s1 := snd (NewDecompressor 0 "backup.tar" s) in
  os.open_files s !! os.next_fd s = None /\
  NewDecompressor 0 "backup.tar" s = ((Some d, None), s1) /\
  path.Ext "backup.tar" <> ".gz" /\
  exists content rd r tr' s2,
    os.disk s !! "backup.tar" = Some content /\ reader d = Some rd /\
    ReadFileFromTar false ((fun _ _ => tape_abc) rd content) "dir/b"
      = Done (r, tr') /\
    ReadFileFromArchive (fun _ _ => tape_abc) (fun _ _ => None) 0 false
      "backup.tar" "dir/b" s = (Done r, s2) /\
    os.open_files s2 = os.open_files s /\ os.disk s2 = os.disk s.
Proof.
  intros s d s1.
  assert (H : path.Ext "backup.tar" <> ".gz") by (vm_compute; discriminate).
  split; [reflexivity|]. split; [reflexivity|]. split; [exact H|].
  exact (ReadFileFromArchive_closes_file (fun _ _ => tape_abc)
           (fun _ _ => None) 0 false "backup.tar" "dir/b" s d s1
           eq_refl eq_refl H).
Defined.


(** ** dirReader: what every Read keeps *)

Lemma tar_Read_length n r data e r' :
  tar.Read n r = ((data, e), r') -> (length data <= n)%nat.
Proof.
  unfold tar.Read. destruct (tar.err r); [intros [= <- _ _]; cbn; lia|].
  assert (H : (length (firstn n (tar.curr r)) <= n)%nat)
    by apply firstn_le_length.
  destruct (skipn n (tar.curr r)); [|now intros [= <- _ _]].
  destruct (firstn n (tar.curr r)) eqn:Hd.
  - intros [= <- _ _]. cbn. lia.
  - destruct (tar.eager r); intros [= <- _ _]; exact H.
Qed.

Lemma Read_loop_keeps pkg_tr fuel n : forall dr (h : heap) data e dr' h',
  dirReader_Read_loop fuel pkg_tr dr n h = Done ((data, e), dr', h') ->
  (length data <= n)%nat /\ (data <> [] -> e <> Some io_EOF) /\
  base dr' = base dr /\ tr dr' = tr dr.
Proof.
  induction fuel as [|fuel IH]; intros dr h data e dr' h'; [discriminate|].
  cbn [dirReader_Read_loop].
  destruct (hdr dr) as [hd|]; [|discriminate].
  destruct (decide _);
    [|intros [= <- <- <- _]; cbn; repeat split; auto; lia].
  destruct (deref pkg_tr h) as [r0|]; [|discriminate].
  destruct (tar.Read n r0) as [[data0 er] r1] eqn:HR.
  apply tar_Read_length in HR.
  destruct data0 as [|c cs].
  - destruct (is_EOF er) eqn:Her.
    + destruct (deref (tr dr) _) as [r2|]; [|discriminate].
      destruct (tar.Next r2) as [[hd' e'] r2'].
      destruct e' as [e'|].
      * intros [= <- <- <- _]. cbn. repeat split; auto; lia.
      * intros H. apply IH in H. cbn in H. exact H.
    + intros [= <- <- <- _]. cbn. repeat split; auto; lia.
  - intros [= <- <- <- _]. repeat split; auto.
    intros _. destruct er as [er|]; [|discriminate].
    destruct er; cbn; discriminate.
Qed.

(** X17: a [Read] that returns stores at most [len(b)] bytes, and never
    returns bytes together with [io.EOF]: the end of an entry reached
    while bytes were read is folded into a read without error. *)
Theorem Read_within_buffer pkg_tr dr n (h : heap) data e dr' h' :
  dirReader_Read pkg_tr dr n h = Done ((data, e), dr', h') ->
  (length data <= n)%nat /\ (data <> [] -> e <> Some io_EOF).
Proof.
  unfold dirReader_Read. destruct (err dr).
  - intros [= <- <- _ _]. cbn. split; [lia | congruence].
  - intros H. apply Read_loop_keeps in H. tauto.
Qed.

Lemma Read_within_buffer_witness :
  let dr := {| tr := Some 1;
               hdr := Some {| tar.Name := "dir/a"; tar.Size := 4 |};
               base := "dir"; err := None |} in
  let r := snd (tar.Next (tar.NewReader true tape_abc)) in
  let h : heap := {[ 1 := r ]} in
  dirReader_Read (Some 1) dr 3 h
    = Done ((list_byte_of_string "AAA", None), dr,
            <[1 := tar.set_curr (list_byte_of_string "A") r]> h) /\
  (length (list_byte_of_string "AAA") <= 3)%nat /\
  (list_byte_of_string "AAA" <> [] -> (None : option error) <> Some io_EOF).
Proof.
  intros dr r h.
  assert (H : dirReader_Read (Some 1) dr 3 h
              = Done ((list_byte_of_string "AAA", None), dr,
                      <[1 := tar.set_curr (list_byte_of_string "A") r]> h))
    by reflexivity.
  split; [exact H|].
  exact (Read_within_buffer (Some 1) dr 3 h _ _ _ _ H).
Defined.

(** X18: a [Read] that returns leaves the reader with the same
    directory and the same scanner, and with no deferred error: an error
    is deferred at construction only. *)
Theorem Read_keeps_base_and_scanner pkg_tr dr n (h : heap) r dr' h' :
  dirReader_Read pkg_tr dr n h = Done (r, dr', h') ->
  base dr' = base dr /\ tr dr' = tr dr /\ err dr' = None.
Proof.
  intros H. split; [|split]; [| |eapply Read_err; exact H];
    unfold dirReader_Read in H; destruct (err dr);
    try (injection H as _ <- _; reflexivity);
    destruct r as [data e]; apply Read_loop_keeps in H; tauto.
Qed.

Lemma Read_keeps_base_and_scanner_witness :
  let dr := {| tr := Some 1; hdr := None; base := "dir";
               err := Some tar_ErrHeader |} in
  dirReader_Read None dr 8 ∅
    = Done (([], Some tar_ErrHeader), clear_err dr, ∅) /\
  base (clear_err dr) = base dr /\ tr (clear_err dr) = tr dr /\
  err (clear_err dr) = None.
Proof.
  intros dr.
  assert (H : dirReader_Read None dr 8 ∅
              = Done (([], Some tar_ErrHeader), clear_err dr, ∅))
    by reflexivity.
  split; [exact H|].
  exact (Read_keeps_base_and_scanner None dr 8 ∅ _ _ _ H).
Defined.

(** X19: the loop of [Read] ends: every call returns or panics, within
    one round more than there are records ahead of the reader's scanner,
    whatever the tape, the heap and the scanner that [tr] stands for. *)
Theorem Read_returns_or_panics pkg_tr dr n (h : heap) :
  (exists res, dirReader_Read pkg_tr dr n h = Done res) \/
  (exists m, dirReader_Read pkg_tr dr n h = Panic m).
Proof.
  pose proof (Read_total pkg_tr dr n h) as H.
  destruct (dirReader_Read pkg_tr dr n h); [eauto | eauto | congruence].
Qed.

(** X20: [DirReader], given a scanner and a header, always returns a
    reader: on the cleaned name of the header, over the scanner given,
    and holding either the header of the next record or the deferred
    error of the advance, never both and never neither. *)
Theorem DirReader_header_or_error l r (h : heap) dh :
  h !! l = Some r ->
  exists dr h1,
    DirReader (Some l) (Some dh) h = Done (dr, h1) /\
    base dr = path.Clean (tar.Name dh) /\ tr dr = Some l /\
    h1 !! l = Some (snd (tar.Next r)) /\
    ((hdr dr = None /\ err dr <> None) \/ (hdr dr <> None /\ err dr = None)).
Proof.
  intros Hl. unfold DirReader. cbn [deref mbind option_bind]. rewrite Hl.
  destruct (tar.Next r) as [[hd e] r'] eqn:HN.
  do 2 eexists. split; [reflexivity|]. cbn. repeat split.
  - apply lookup_insert_eq.
  - eapply Next_header_or_error. exact HN.
Qed.

Lemma DirReader_header_or_error_witness :
  two_readers true tape_abc !! 1 = Some (tar.NewReader true tape_abc) /\
  exists dr h1,
    DirReader (Some 1) (Some dir_header) (two_readers true tape_abc)
      = Done (dr, h1) /\
    base dr = path.Clean (tar.Name dir_header) /\ tr dr = Some 1 /\
    h1 !! 1 = Some (snd (tar.Next (tar.NewReader true tape_abc))) /\
    ((hdr dr = None /\ err dr <> None) \/ (hdr dr <> None /\ err dr = None)).
Proof.
  split; [reflexivity|].
  exact (DirReader_header_or_error 1 (tar.NewReader true tape_abc)
           (two_readers true tape_abc) dir_header eq_refl).
Defined.

Lemma DirReader_concat_own_scanner_witness :
  let es := [file_entry "dir/a" "AAAA"; file_entry "dir/b" "BBBBBB"] in
  let rest := [file_entry "other/c" "CCC"] in
  (0 < 3)%nat /\
  Forall (in_dir (path.Clean (tar.Name dir_header))) es /\
  outside (path.Clean (tar.Name dir_header)) rest /\
  two_readers true tape_abc !! 1
    = Some (tar.NewReader true
              {| tar.entries := es ++ rest; tar.stop := io_EOF |}) /\
  exists dr h1 dr' h',
    DirReader (Some 1) (Some dir_header) (two_readers true tape_abc)
      = Done (dr, h1) /\
    read_out (S (length (bodies es))) (Some 1) dr 3 h1 []
      = Done ((bodies es, Some (dir_end rest io_EOF)), dr', h').
Proof.
  intros es rest.
  assert (Hn : (0 < 3)%nat) by lia.
  assert (Hes : Forall (in_dir (path.Clean (tar.Name dir_header))) es).
  { repeat constructor. }
  assert (Hout : outside (path.Clean (tar.Name dir_header)) rest).
  { vm_compute. discriminate. }
  split; [exact Hn|]. split; [exact Hes|]. split; [exact Hout|].
  split; [reflexivity|].
  exact (DirReader_concat_own_scanner true 1 3 dir_header es rest io_EOF
           (two_readers true tape_abc) Hn Hes Hout eq_refl).
Defined.

Lemma Read_after_lost_header_witness :
  let dr := {| tr := Some 1; hdr := None; base := "dir";
               err := Some io_EOF |} in
  dirReader_Read (Some 1) dr 8 ∅ = Done (([], Some io_EOF), clear_err dr, ∅)
  /\ hdr (clear_err dr) = None
  /\ forall n', dirReader_Read (Some 1) (clear_err dr) n' ∅ = Panic nil_deref.
Proof.
  intros dr.
  assert (H : dirReader_Read (Some 1) dr 8 ∅
              = Done (([], Some io_EOF), clear_err dr, ∅)) by reflexivity.
  split; [exact H|]. split; [reflexivity|].
  exact (Read_after_lost_header (Some 1) dr 8 ∅ _ _ _ H eq_refl).
Defined.
